(** * essence-sse-next: a shallow embedding of [src/essence-sse.ts]

    The module exports two classes.  [EssenceSSEServer] owns the writable
    side of a [TransformStream] and pushes tagged JSON envelopes into it;
    [EssenceSSEClient] subscribes an [EventSource] listener on one event
    tag, parses every message and hands it to a user callback.

    The classes are embedded as state-passing programs in a small
    state-and-exception monad.  The platform objects they call
    ([TextEncoder], [JSON], [WritableStreamDefaultWriter], [AbortSignal],
    [EventSource], [console]) are modelled after their standards, to the
    extent the two classes observe them. *)

From Stdlib Require Import Strings.String Strings.Ascii Strings.Byte.
From Stdlib Require Import List NArith ZArith Bool Lia.
Import ListNotations.

Local Open Scope list_scope.

(** ** JavaScript strings

    A JavaScript string is a sequence of UTF-16 code units. *)

Definition code_unit := N.
Definition jsstring := list code_unit.

(** String literals of the source (all of them ASCII). *)
Definition js (s : string) : jsstring :=
  map N_of_ascii (list_ascii_of_string s).

(** A literal between double quotes. *)
Definition quoted (s : string) : jsstring := [0x22%N] ++ js s ++ [0x22%N].

Definition jsstring_eqb (a b : jsstring) : bool :=
  if list_eq_dec N.eq_dec a b then true else false.

(** ** [TextEncoder.prototype.encode]: UTF-16 code units to UTF-8 bytes

    Surrogate pairs are combined into one code point; a lone surrogate is
    replaced by U+FFFD, as the Encoding standard prescribes. *)

Module TextEncoder.

Definition octet (n : N) : byte :=
  match Byte.of_N n with Some b => b | None => x00 end.

Definition is_lead_surrogate (c : code_unit) : bool :=
  ((0xD800 <=? c) && (c <=? 0xDBFF))%N.

Definition is_trail_surrogate (c : code_unit) : bool :=
  ((0xDC00 <=? c) && (c <=? 0xDFFF))%N.

Definition continuation (cp : N) (shift : N) : byte :=
  octet (N.lor 0x80 (N.land (N.shiftr cp shift) 0x3F)).

Definition utf8_of_code_point (cp : N) : list byte :=
  if (cp <? 0x80)%N then [octet cp]
  else if (cp <? 0x800)%N then
    [octet (N.lor 0xC0 (N.shiftr cp 6)); continuation cp 0]
  else if (cp <? 0x10000)%N then
    [octet (N.lor 0xE0 (N.shiftr cp 12)); continuation cp 6; continuation cp 0]
  else
    [octet (N.lor 0xF0 (N.shiftr cp 18)); continuation cp 12;
     continuation cp 6; continuation cp 0].

Definition replacement : list byte := utf8_of_code_point 0xFFFD.

Definition pair_code_point (lead trail : code_unit) : N :=
  (0x10000 + (lead - 0xD800) * 0x400 + (trail - 0xDC00))%N.

Fixpoint encode (s : jsstring) : list byte :=
  match s with
  | [] => []
  | c :: rest =>
      if is_lead_surrogate c then
        match rest with
        | d :: rest' =>
            if is_trail_surrogate d
            then utf8_of_code_point (pair_code_point c d) ++ encode rest'
            else replacement ++ encode rest
        | [] => replacement
        end
      else if is_trail_surrogate c then replacement ++ encode rest
      else utf8_of_code_point c ++ encode rest
  end.

(** An [undefined] argument takes the default, the empty string. *)
Definition encode_arg (input : option jsstring) : list byte :=
  encode (match input with Some s => s | None => [] end).

(** The right part of a concatenation does not start in the middle of
    a surrogate pair. *)
Definition starts_clean (b : jsstring) : Prop :=
  match b with
  | c :: _ => is_trail_surrogate c = false
  | [] => True
  end.

End TextEncoder.

(** ** JavaScript values

    Objects and arrays carry the location they were allocated at, which
    is what [===] compares.  The properties of an object are listed in
    own-property enumeration order.  Numbers are exact decimals
    [m * 10^e]; rounding to IEEE doubles is not modelled.  Functions,
    symbols and cyclic structures are outside the embedding. *)

Definition loc := N.

#[local] Set Warnings "-register-all".

Inductive number :=
| Finite (m e : Z)
| NaN
| Infinity (negative : bool).

Inductive value :=
| VUndefined
| VNull
| VBoolean (b : bool)
| VNumber (x : number)
| VString (s : jsstring)
| VBigInt (z : Z)
| VArray (l : loc) (elems : list value)
| VObject (l : loc) (props : list (jsstring * value)).

Inductive error :=
| TypeError (msg : string)
| SyntaxError (msg : string).

(** The outcome of evaluating an expression: a value, or a thrown error. *)
Inductive completion (A : Type) :=
| Normal (a : A)
| Throw (e : error).
Arguments Normal {A} a.
Arguments Throw {A} e.

Definition identity (v : value) : option loc :=
  match v with
  | VArray l _ | VObject l _ => Some l
  | _ => None
  end.

Definition number_eqb (x y : number) : bool :=
  match x, y with
  | Finite m e, Finite m' e' =>
      if (e <=? e')%Z then (m =? m' * 10 ^ (e' - e))%Z
      else (m * 10 ^ (e - e') =? m')%Z
  | Infinity a, Infinity b => Bool.eqb a b
  | _, _ => false
  end.

(** [a === b] *)
Definition IsStrictlyEqual (a b : value) : bool :=
  match a, b with
  | VUndefined, VUndefined => true
  | VNull, VNull => true
  | VBoolean x, VBoolean y => Bool.eqb x y
  | VNumber x, VNumber y => number_eqb x y
  | VString x, VString y => jsstring_eqb x y
  | VBigInt x, VBigInt y => (x =? y)%Z
  | (VArray l _ | VObject l _), (VArray l' _ | VObject l' _) => (l =? l')%N
  | _, _ => false
  end.

(** ** Decimal digits and [Number::toString] *)

Module Digits.

Fixpoint of_uint (u : Decimal.uint) : list N :=
  match u with
  | Decimal.Nil => []
  | Decimal.D0 u => 0%N :: of_uint u
  | Decimal.D1 u => 1%N :: of_uint u
  | Decimal.D2 u => 2%N :: of_uint u
  | Decimal.D3 u => 3%N :: of_uint u
  | Decimal.D4 u => 4%N :: of_uint u
  | Decimal.D5 u => 5%N :: of_uint u
  | Decimal.D6 u => 6%N :: of_uint u
  | Decimal.D7 u => 7%N :: of_uint u
  | Decimal.D8 u => 8%N :: of_uint u
  | Decimal.D9 u => 9%N :: of_uint u
  end.

(** Most significant digit first; [of_N 0 = [0]]. *)
Definition of_N (n : N) : list N := of_uint (N.to_uint n).

Definition show (ds : list N) : jsstring := map (fun d => (48 + d)%N) ds.

Fixpoint drop_zeros (ds : list N) : list N * Z :=
  match ds with
  | 0%N :: ds' => let '(r, t) := drop_zeros ds' in (r, (t + 1)%Z)
  | _ => (ds, 0%Z)
  end.

(** The digits without their trailing zeros, and how many were dropped. *)
Definition strip_trailing_zeros (ds : list N) : list N * Z :=
  let '(r, t) := drop_zeros (rev ds) in (rev r, t).

Definition hex_digit (d : N) : code_unit :=
  if (d <? 10)%N then (48 + d)%N else (87 + d)%N.

(** Four lower-case hexadecimal digits, as [UnicodeEscape] prints them. *)
Definition hex4 (c : N) : jsstring :=
  [hex_digit (N.land (N.shiftr c 12) 0xF); hex_digit (N.land (N.shiftr c 8) 0xF);
   hex_digit (N.land (N.shiftr c 4) 0xF); hex_digit (N.land c 0xF)].

End Digits.

Definition zeros (n : Z) : jsstring := repeat 48%N (Z.to_nat n).

(** [Number::toString(x, 10)], ECMA-262 6.1.6.1.20, on exact decimals. *)
Definition Number_toString (x : number) : jsstring :=
  match x with
  | NaN => js "NaN"
  | Infinity neg => (if neg then js "-" else []) ++ js "Infinity"
  | Finite m e =>
      if (m =? 0)%Z then js "0" else
      let '(s, t) := Digits.strip_trailing_zeros (Digits.of_N (Z.to_N (Z.abs m))) in
      let k := Z.of_nat (List.length s) in
      let n := (k + e + t)%Z in
      (if (m <? 0)%Z then js "-" else []) ++
      (if ((k <=? n) && (n <=? 21))%Z then
         Digits.show s ++ zeros (n - k)
       else if ((0 <? n) && (n <=? 21))%Z then
         Digits.show (firstn (Z.to_nat n) s) ++ js "." ++ Digits.show (skipn (Z.to_nat n) s)
       else if ((-6 <? n) && (n <=? 0))%Z then
         js "0." ++ zeros (- n) ++ Digits.show s
       else
         let e' := (n - 1)%Z in
         Digits.show (firstn 1 s) ++
         (if (k =? 1)%Z then [] else js "." ++ Digits.show (skipn 1 s)) ++
         js "e" ++ (if (e' <? 0)%Z then js "-" else js "+") ++
         Digits.show (Digits.of_N (Z.to_N (Z.abs e'))))
  end.


(** ** [ToString] applied to a value, as [+] with a string operand does

    An object without an own [toString] property answers through
    [Object.prototype.toString]; an array through [Array.prototype.join].
    No value of the embedding is callable, so an own [toString] (and then
    [valueOf]) property leaves [OrdinaryToPrimitive] with a [TypeError]. *)

Definition has_own (k : jsstring) (props : list (jsstring * value)) : bool :=
  existsb (fun p => jsstring_eqb (fst p) k) props.

Fixpoint join (sep : jsstring) (parts : list jsstring) : jsstring :=
  match parts with
  | [] => []
  | [p] => p
  | p :: rest => p ++ sep ++ join sep rest
  end.

Fixpoint ToString (v : value) : completion jsstring :=
  match v with
  | VUndefined => Normal (js "undefined")
  | VNull => Normal (js "null")
  | VBoolean b => Normal (if b then js "true" else js "false")
  | VNumber x => Normal (Number_toString x)
  | VString s => Normal s
  | VBigInt z =>
      Normal ((if (z <? 0)%Z then js "-" else []) ++
              Digits.show (Digits.of_N (Z.to_N (Z.abs z))))
  | VArray _ elems =>
      let fix each (xs : list value) : completion (list jsstring) :=
        match xs with
        | [] => Normal []
        | x :: xs' =>
            match (match x with
                   | VUndefined | VNull => Normal []
                   | _ => ToString x
                   end) with
            | Throw e => Throw e
            | Normal s =>
                match each xs' with
                | Throw e => Throw e
                | Normal r => Normal (s :: r)
                end
            end
        end in
      match each elems with
      | Throw e => Throw e
      | Normal parts => Normal (join (js ",") parts)
      end
  | VObject _ props =>
      if has_own (js "toString") props
      then Throw (TypeError "Cannot convert object to primitive value")
      else Normal (js "[object Object]")
  end.

(** ** [JSON.stringify] and [JSON.parse] *)

Module JSON.

(** [QuoteJSONString], ECMA-262 25.5.2.3. *)
Definition escape (c : code_unit) : jsstring :=
  if (c =? 0x08)%N then js "\b"
  else if (c =? 0x09)%N then js "\t"
  else if (c =? 0x0A)%N then js "\n"
  else if (c =? 0x0C)%N then js "\f"
  else if (c =? 0x0D)%N then js "\r"
  else if (c =? 0x22)%N then [0x5C; 0x22]%N
  else if (c =? 0x5C)%N then [0x5C; 0x5C]%N
  else if (c <? 0x20)%N then js "\u" ++ Digits.hex4 c
  else [c].

Definition unicode_escape (c : code_unit) : jsstring := js "\u" ++ Digits.hex4 c.

Fixpoint quote_units (s : jsstring) : jsstring :=
  match s with
  | [] => []
  | c :: rest =>
      if TextEncoder.is_lead_surrogate c then
        match rest with
        | d :: rest' =>
            if TextEncoder.is_trail_surrogate d
            then c :: d :: quote_units rest'
            else unicode_escape c ++ quote_units rest
        | [] => unicode_escape c
        end
      else if TextEncoder.is_trail_surrogate c then unicode_escape c ++ quote_units rest
      else escape c ++ quote_units rest
  end.

Definition QuoteJSONString (s : jsstring) : jsstring :=
  [0x22%N] ++ quote_units s ++ [0x22%N].

(** [SerializeJSONProperty]: [None] is the result [undefined]. *)
Fixpoint SerializeJSONProperty (v : value) : completion (option jsstring) :=
  match v with
  | VUndefined => Normal None
  | VNull => Normal (Some (js "null"))
  | VBoolean b => Normal (Some (if b then js "true" else js "false"))
  | VNumber (Finite m e) => Normal (Some (Number_toString (Finite m e)))
  | VNumber _ => Normal (Some (js "null"))
  | VString s => Normal (Some (QuoteJSONString s))
  | VBigInt _ => Throw (TypeError "Do not know how to serialize a BigInt")
  | VArray _ elems =>
      let fix elements (xs : list value) : completion (list jsstring) :=
        match xs with
        | [] => Normal []
        | x :: xs' =>
            match SerializeJSONProperty x with
            | Throw e => Throw e
            | Normal o =>
                match elements xs' with
                | Throw e => Throw e
                | Normal r =>
                    Normal (match o with Some s => s | None => js "null" end :: r)
                end
            end
        end in
      match elements elems with
      | Throw e => Throw e
      | Normal parts => Normal (Some (js "[" ++ join (js ",") parts ++ js "]"))
      end
  | VObject _ props =>
      let fix members (ps : list (jsstring * value)) : completion (list jsstring) :=
        match ps with
        | [] => Normal []
        | (k, x) :: ps' =>
            match SerializeJSONProperty x with
            | Throw e => Throw e
            | Normal o =>
                match members ps' with
                | Throw e => Throw e
                | Normal r =>
                    Normal (match o with
                            | Some s => (QuoteJSONString k ++ js ":" ++ s) :: r
                            | None => r
                            end)
                end
            end
        end in
      match members props with
      | Throw e => Throw e
      | Normal parts => Normal (Some (js "{" ++ join (js ",") parts ++ js "}"))
      end
  end.

(** [JSON.stringify(value)] with no replacer and no indentation. *)
Definition stringify (v : value) : completion (option jsstring) :=
  SerializeJSONProperty v.

(** *** [JSON.parse]

    A recursive-descent reader of the JSON grammar (ECMA-404).  Every
    object and array it builds is allocated at a fresh location, taken
    from the counter [next]. *)

Definition is_ws (c : code_unit) : bool :=
  ((c =? 0x20) || (c =? 0x09) || (c =? 0x0A) || (c =? 0x0D))%N.

Fixpoint skip_ws (s : jsstring) : jsstring :=
  match s with
  | c :: rest => if is_ws c then skip_ws rest else s
  | [] => []
  end.

Definition is_digit (c : code_unit) : bool := ((0x30 <=? c) && (c <=? 0x39))%N.

Definition hex_value (c : code_unit) : option N :=
  if is_digit c then Some (c - 0x30)%N
  else if ((0x41 <=? c) && (c <=? 0x46))%N then Some (c - 0x41 + 10)%N
  else if ((0x61 <=? c) && (c <=? 0x66))%N then Some (c - 0x61 + 10)%N
  else None.

Definition simple_escape (c : code_unit) : option code_unit :=
  if (c =? 0x22)%N then Some 0x22%N
  else if (c =? 0x5C)%N then Some 0x5C%N
  else if (c =? 0x2F)%N then Some 0x2F%N
  else if (c =? 0x62)%N then Some 0x08%N
  else if (c =? 0x66)%N then Some 0x0C%N
  else if (c =? 0x6E)%N then Some 0x0A%N
  else if (c =? 0x72)%N then Some 0x0D%N
  else if (c =? 0x74)%N then Some 0x09%N
  else None.

(** The characters of a string literal after its opening quote, up to
    and including the closing quote. *)
Fixpoint string_chars (s : jsstring) : option (jsstring * jsstring) :=
  match s with
  | [] => None
  | c :: rest =>
      if (c =? 0x22)%N then Some ([], rest)
      else if (c =? 0x5C)%N then
        match rest with
        | [] => None
        | e :: rest1 =>
            if (e =? 0x75)%N then
              match rest1 with
              | h1 :: h2 :: h3 :: h4 :: rest2 =>
                  match hex_value h1, hex_value h2, hex_value h3, hex_value h4 with
                  | Some x1, Some x2, Some x3, Some x4 =>
                      match string_chars rest2 with
                      | Some (cs, r) =>
                          Some ((x1 * 4096 + x2 * 256 + x3 * 16 + x4)%N :: cs, r)
                      | None => None
                      end
                  | _, _, _, _ => None
                  end
              | _ => None
              end
            else
              match simple_escape e with
              | Some u =>
                  match string_chars rest1 with
                  | Some (cs, r) => Some (u :: cs, r)
                  | None => None
                  end
              | None => None
              end
        end
      else if (c <? 0x20)%N then None
      else
        match string_chars rest with
        | Some (cs, r) => Some (c :: cs, r)
        | None => None
        end
  end.

(** A run of decimal digits: the accumulated value, how many digits
    were read, and what follows them. *)
Fixpoint digits (s : jsstring) (acc : Z) (count : Z) : Z * Z * jsstring :=
  match s with
  | c :: rest =>
      if is_digit c
      then digits rest (acc * 10 + Z.of_N (c - 0x30))%Z (count + 1)%Z
      else (acc, count, s)
  | [] => (acc, count, [])
  end.

Definition fraction (s : jsstring) (int : Z) : option (Z * Z * jsstring) :=
  match s with
  | c :: r =>
      if (c =? 0x2E)%N then
        let '(m, n, r') := digits r int 0%Z in
        if (n =? 0)%Z then None else Some (m, n, r')
      else Some (int, 0%Z, s)
  | [] => Some (int, 0%Z, [])
  end.

Definition exponent (s : jsstring) : option (Z * jsstring) :=
  match s with
  | c :: r =>
      if ((c =? 0x65) || (c =? 0x45))%N then
        let '(neg, r1) :=
          match r with
          | d :: r' =>
              if (d =? 0x2D)%N then (true, r')
              else if (d =? 0x2B)%N then (false, r')
              else (false, r)
          | [] => (false, r)
          end in
        let '(v, n, r2) := digits r1 0%Z 0%Z in
        if (n =? 0)%Z then None else Some ((if neg then - v else v)%Z, r2)
      else Some (0%Z, s)
  | [] => Some (0%Z, [])
  end.

(** A JSON number: an optional minus sign, an integer part without
    leading zeros, an optional fraction and an optional exponent. *)
Definition parse_number (s : jsstring) : option (number * jsstring) :=
  let '(neg, s1) :=
    match s with
    | c :: r => if (c =? 0x2D)%N then (true, r) else (false, s)
    | [] => (false, s)
    end in
  match s1 with
  | [] => None
  | c :: r1 =>
      if is_digit c then
        let '(int, s2) :=
          if (c =? 0x30)%N then (0%Z, r1)
          else let '(v, _, r) := digits s1 0%Z 0%Z in (v, r) in
        match fraction s2 int with
        | None => None
        | Some (m, fd, s3) =>
            match exponent s3 with
            | None => None
            | Some (ex, s4) =>
                Some (Finite (if neg then - m else m)%Z (ex - fd)%Z, s4)
            end
        end
      else None
  end.

Fixpoint strip_prefix (p s : jsstring) : option jsstring :=
  match p, s with
  | [], _ => Some s
  | a :: p', b :: s' => if (a =? b)%N then strip_prefix p' s' else None
  | _ :: _, [] => None
  end.

(** An array index is a canonical numeric string below [2^32 - 1]. *)
Definition array_index (k : jsstring) : option N :=
  match k with
  | [] => None
  | c :: rest =>
      if forallb is_digit k && (negb (c =? 0x30)%N || Nat.eqb (List.length rest) 0) then
        let v := fold_left (fun a d => (a * 10 + (d - 0x30))%N) k 0%N in
        if (v <? 4294967295)%N then Some v else None
      else None
  end.

Fixpoint replace_value (k : jsstring) (v : value) (props : list (jsstring * value))
  : list (jsstring * value) :=
  match props with
  | [] => []
  | (k', v') :: rest =>
      if jsstring_eqb k' k then (k', v) :: rest
      else (k', v') :: replace_value k v rest
  end.

Fixpoint insert_index (i : N) (k : jsstring) (v : value)
         (props : list (jsstring * value)) : list (jsstring * value) :=
  match props with
  | [] => [(k, v)]
  | (k', v') :: rest =>
      match array_index k' with
      | Some j =>
          if (i <? j)%N then (k, v) :: props
          else (k', v') :: insert_index i k v rest
      | None => (k, v) :: props
      end
  end.

(** [CreateDataProperty] on the enumeration-ordered property list: a
    repeated key keeps its place and takes the new value; array
    indices come first, in ascending order; other keys follow in
    creation order. *)
Definition CreateDataProperty (props : list (jsstring * value))
           (k : jsstring) (v : value) : list (jsstring * value) :=
  if has_own k props then replace_value k v props
  else
    match array_index k with
    | Some i => insert_index i k v props
    | None => props ++ [(k, v)]
    end.

Inductive outcome :=
| Parsed (v : value) (rest : jsstring) (next : loc)
| Malformed
| OutOfFuel.

Fixpoint parse_value (fuel : nat) (s : jsstring) (next : loc) : outcome :=
  match fuel with
  | O => OutOfFuel
  | S fuel' =>
      match skip_ws s with
      | [] => Malformed
      | c :: rest =>
          if (c =? 0x7B)%N then
            match skip_ws rest with
            | [] => Malformed
            | d :: rest' =>
                if (d =? 0x7D)%N then Parsed (VObject next []) rest' (next + 1)%N
                else parse_members fuel' rest next (next + 1)%N []
            end
          else if (c =? 0x5B)%N then
            match skip_ws rest with
            | [] => Malformed
            | d :: rest' =>
                if (d =? 0x5D)%N then Parsed (VArray next []) rest' (next + 1)%N
                else parse_elements fuel' rest next (next + 1)%N []
            end
          else if (c =? 0x22)%N then
            match string_chars rest with
            | Some (str, r) => Parsed (VString str) r next
            | None => Malformed
            end
          else if (c =? 0x2D)%N || is_digit c then
            match parse_number (c :: rest) with
            | Some (x, r) => Parsed (VNumber x) r next
            | None => Malformed
            end
          else
            match strip_prefix (js "true") (c :: rest) with
            | Some r => Parsed (VBoolean true) r next
            | None =>
                match strip_prefix (js "false") (c :: rest) with
                | Some r => Parsed (VBoolean false) r next
                | None =>
                    match strip_prefix (js "null") (c :: rest) with
                    | Some r => Parsed VNull r next
                    | None => Malformed
                    end
                end
            end
      end
  end

with parse_elements (fuel : nat) (s : jsstring) (self next : loc)
                    (acc : list value) : outcome :=
  match fuel with
  | O => OutOfFuel
  | S fuel' =>
      match parse_value fuel' s next with
      | Parsed v r next' =>
          match skip_ws r with
          | [] => Malformed
          | c :: r' =>
              if (c =? 0x2C)%N then parse_elements fuel' r' self next' (acc ++ [v])
              else if (c =? 0x5D)%N then Parsed (VArray self (acc ++ [v])) r' next'
              else Malformed
          end
      | Malformed => Malformed
      | OutOfFuel => OutOfFuel
      end
  end

with parse_members (fuel : nat) (s : jsstring) (self next : loc)
                   (acc : list (jsstring * value)) : outcome :=
  match fuel with
  | O => OutOfFuel
  | S fuel' =>
      match skip_ws s with
      | [] => Malformed
      | c :: r =>
          if (c =? 0x22)%N then
            match string_chars r with
            | None => Malformed
            | Some (k, r1) =>
                match skip_ws r1 with
                | [] => Malformed
                | c1 :: r2 =>
                    if (c1 =? 0x3A)%N then
                      match parse_value fuel' r2 next with
                      | Parsed v r3 next' =>
                          match skip_ws r3 with
                          | [] => Malformed
                          | c2 :: r4 =>
                              if (c2 =? 0x2C)%N then
                                parse_members fuel' r4 self next'
                                              (CreateDataProperty acc k v)
                              else if (c2 =? 0x7D)%N then
                                Parsed (VObject self (CreateDataProperty acc k v)) r4 next'
                              else Malformed
                          end
                      | Malformed => Malformed
                      | OutOfFuel => OutOfFuel
                      end
                    else Malformed
                end
            end
          else Malformed
      end
  end.

(** Every call of the reader consumes input before it recurses, so
    twice the length of the text is fuel enough ([parse_value_fuel]). *)
Definition fuel_for (text : jsstring) : nat := 2 * List.length text + 1.

(** [JSON.parse(text)] with no reviver: the value and the advanced
    allocation counter, or a [SyntaxError]. *)
Definition parse (text : jsstring) (next : loc) : completion (value * loc) :=
  match parse_value (fuel_for text) text next with
  | Parsed v rest next' =>
      match skip_ws rest with
      | [] => Normal (v, next')
      | _ :: _ => Throw (SyntaxError "Unexpected non-whitespace character after JSON")
      end
  | Malformed | OutOfFuel => Throw (SyntaxError "Unexpected token or end of JSON input")
  end.

(** Whether a text is JSON at all. *)
Definition valid (text : jsstring) : bool :=
  match parse text 0%N with
  | Normal _ => true
  | Throw _ => false
  end.

(** What a reading looks like from outside: how much input is left. *)
Definition shape (o : outcome) : option (option jsstring) :=
  match o with
  | Parsed _ r _ => Some (Some r)
  | Malformed => Some None
  | OutOfFuel => None
  end.

End JSON.

(** ** Method bodies: state passing with exceptions

    A method body is a function from the world before to a completion
    and the world after.  A [Throw] keeps the effects performed so far
    and skips the rest of the body. *)

Definition M (St A : Type) : Type := St -> completion A * St.

Definition ret {St A : Type} (a : A) : M St A := fun s => (Normal a, s).

Definition bind {St A B : Type} (m : M St A) (k : A -> M St B) : M St B :=
  fun s =>
    match m s with
    | (Normal a, s') => k a s'
    | (Throw e, s') => (Throw e, s')
    end.

Definition lift {St A : Type} (c : completion A) : M St A := fun s => (c, s).

Definition gets {St A : Type} (f : St -> A) : M St A := fun s => (Normal (f s), s).

Definition modify {St : Type} (f : St -> St) : M St unit := fun s => (Normal tt, f s).

Declare Scope method_scope.
Delimit Scope method_scope with method.
Notation "x <- m ;; k" := (bind m (fun x => k))
  (at level 61, m at next level, right associativity) : method_scope.
Notation "m ;; k" := (bind m (fun _ => k))
  (at level 61, right associativity) : method_scope.

(** The world a method leaves behind, whether it returned or threw. *)
Definition exec {St A : Type} (m : M St A) (s : St) : St := snd (m s).

(** ** The module-level constant

    [const TERMINATION_PAYLOAD = { payload: null, status: "terminate" }]
    is evaluated once, when the module is loaded, and is the first object
    the module allocates. *)

Definition TERMINATION_PAYLOAD : value :=
  VObject 0%N [(js "payload", VNull); (js "status", VString (js "terminate"))].

(** What the realm looks like once the module has been evaluated. *)
Record Runtime := {
  rt_console : list jsstring;
  rt_heap_next : loc
}.

Definition module_loaded : Runtime := {| rt_console := []; rt_heap_next := 1%N |}.

(** ** [WritableStreamDefaultWriter], as far as the server uses it

    [write(chunk)] on a writable stream queues the chunk; the readable
    side yields the queued chunks in order, also those queued before a
    [close()].  Once [close()] has been requested, [write] and [close]
    return a promise rejected with a [TypeError] and leave the stream
    alone (Streams standard, WritableStreamDefaultWriterWrite and
    WritableStreamDefaultWriterClose); they never throw.  The server
    awaits none of these promises.  A stream errored from its readable
    side is not modelled. *)

Module Streams.

Inductive request :=
| Write (chunk : list byte)
| Close.

Record Writer := {
  closed : bool;                  (* close() has been requested *)
  wire : list (list byte);        (* chunks accepted, in order *)
  issued : list request;          (* every call made on the writer *)
  rejected : list request         (* the calls whose promise rejected *)
}.

Definition getWriter : Writer :=
  {| closed := false; wire := []; issued := []; rejected := [] |}.

Definition write (chunk : list byte) (w : Writer) : Writer :=
  {| closed := closed w;
     wire := if closed w then wire w else wire w ++ [chunk];
     issued := issued w ++ [Write chunk];
     rejected := if closed w then rejected w ++ [Write chunk] else rejected w |}.

Definition close (w : Writer) : Writer :=
  {| closed := true;
     wire := wire w;
     issued := issued w ++ [Close];
     rejected := if closed w then rejected w ++ [Close] else rejected w |}.

End Streams.

(** ** [class EssenceSSEServer] *)

Module Server.

(** The arrow function assigned to [request.signal.onabort]. *)
Inductive handler := ConnectionAborted.

Record AbortSignal := {
  onabort : option handler;
  aborted : bool
}.

Record NextRequest := { signal : AbortSignal }.

Inductive stream_body := Readable (stream : loc).

Record NextResponse := {
  body : stream_body;
  headers : list (jsstring * jsstring)
}.

Record EssenceSSEServer := {
  RESPONSE_STREAM : loc;
  RESPONSE_STREAM_WRITER : Streams.Writer;
  eventTag : jsstring;
  open : bool
}.

Record World := {
  this : EssenceSSEServer;
  request : NextRequest;
  console : list jsstring;
  heap_next : loc
}.

(** *** Elementary effects *)

Definition set_open (b : bool) : M World unit :=
  modify (fun w =>
    {| this := {| RESPONSE_STREAM := RESPONSE_STREAM (this w);
                  RESPONSE_STREAM_WRITER := RESPONSE_STREAM_WRITER (this w);
                  eventTag := eventTag (this w);
                  open := b |};
       request := request w; console := console w; heap_next := heap_next w |}).

Definition on_writer (f : Streams.Writer -> Streams.Writer) : M World unit :=
  modify (fun w =>
    {| this := {| RESPONSE_STREAM := RESPONSE_STREAM (this w);
                  RESPONSE_STREAM_WRITER := f (RESPONSE_STREAM_WRITER (this w));
                  eventTag := eventTag (this w);
                  open := open (this w) |};
       request := request w; console := console w; heap_next := heap_next w |}).

Definition console_log (line : jsstring) : M World unit :=
  modify (fun w =>
    {| this := this w; request := request w;
       console := console w ++ [line]; heap_next := heap_next w |}).

(** An object literal allocates a fresh object. *)
Definition object_literal (props : list (jsstring * value)) : M World value :=
  fun w =>
    (Normal (VObject (heap_next w) props),
     {| this := this w; request := request w;
        console := console w; heap_next := (heap_next w + 1)%N |}).

Local Open Scope method_scope.

(** *** [constructor(request, eventTag)]

    The field initialisers run first: a new [TransformStream], its
    writer, a [TextEncoder].  Then the body stores the tag, clears
    [open] and installs the abort handler on the request's signal. *)
Definition constructor (req : NextRequest) (tag : jsstring) (rt : Runtime) : World :=
  {| this := {| RESPONSE_STREAM := rt_heap_next rt;
                RESPONSE_STREAM_WRITER := Streams.getWriter;
                eventTag := tag;
                open := false |};
     request := {| signal := {| onabort := Some ConnectionAborted;
                                aborted := aborted (signal req) |} |};
     console := rt_console rt;
     heap_next := (rt_heap_next rt + 1)%N |}.

(** *** [openSSE()]

    The response [new NextResponse] builds while nothing has locked the
    readable side of the stream; [Reopen.openSSE_when] adds the call on
    a readable side that a reader holds already. *)
Definition openSSE : M World NextResponse :=
  set_open true ;;
  stream <- gets (fun w => RESPONSE_STREAM (this w)) ;;
  ret {| body := Readable stream;
         headers :=
           [ (js "Access-Control-Allow-Origin", js "*");
             (js "Content-Type", js "text/event-stream; charset=utf-8");
             (js "Connection", js "keep-alive");
             (js "Cache-Control", js "no-cache, no-transform");
             (js "X-Accel-Buffering", js "no");
             (js "Content-Encoding", js "none") ] |}.

(** *** [closeSSE()] *)
Definition closeSSE : M World unit :=
  set_open false ;;
  payload <- lift (JSON.stringify TERMINATION_PAYLOAD) ;;
  tag <- gets (fun w => eventTag (this w)) ;;
  on_writer (Streams.write (TextEncoder.encode (js "event: " ++ tag))) ;;
  on_writer (Streams.write (TextEncoder.encode_arg payload)) ;;
  on_writer Streams.close.

(** *** [pushData(data)] *)
Definition pushData (data : value) : M World unit :=
  envelope <- object_literal [(js "payload", data); (js "status", VString (js "running"))] ;;
  payload <- lift (JSON.stringify envelope) ;;
  tag <- gets (fun w => eventTag (this w)) ;;
  on_writer (Streams.write (TextEncoder.encode (js "event: " ++ tag))) ;;
  on_writer (Streams.write (TextEncoder.encode_arg payload)).

(** *** The abort handler, lines 22-25 *)
Definition run_handler (h : handler) : M World unit :=
  match h with
  | ConnectionAborted =>
      console_log (js "Connection aborted") ;;
      closeSSE
  end.

(** The request's signal fires: the platform marks the signal aborted
    and calls [onabort], once. *)
Definition abort (w : World) : World :=
  if aborted (signal (request w)) then w
  else
    let w' := {| this := this w;
                 request := {| signal := {| onabort := onabort (signal (request w));
                                            aborted := true |} |};
                 console := console w; heap_next := heap_next w |} in
    match onabort (signal (request w)) with
    | Some h => exec (run_handler h) w'
    | None => w'
    end.

(** *** Sequences of operations on one instance *)

Inductive op :=
| OpenSSE
| PushData (data : value)
| CloseSSE
| Abort.

Definition step (w : World) (o : op) : World :=
  match o with
  | OpenSSE => exec openSSE w
  | PushData data => exec (pushData data) w
  | CloseSSE => exec closeSSE w
  | Abort => abort w
  end.

Definition run (ops : list op) (w : World) : World := fold_left step ops w.

(** *** Observations *)

Definition writer (w : World) : Streams.Writer := RESPONSE_STREAM_WRITER (this w).

(** The chunk that carries the channel tag. *)
Definition tag_chunk (tag : jsstring) : list byte :=
  TextEncoder.encode (js "event: " ++ tag).

(** The chunk that carries the termination envelope. *)
Definition termination_chunk : list byte :=
  TextEncoder.encode_arg
    (match JSON.stringify TERMINATION_PAYLOAD with
     | Normal o => o
     | Throw _ => None
     end).

(** The text of the termination envelope. *)
Definition termination_text : jsstring :=
  js "{" ++ quoted "payload" ++ js ":null," ++
  quoted "status" ++ js ":" ++ quoted "terminate" ++ js "}".

(** The state [closeSSE] establishes: the flag is down and the writer
    has been closed. *)
Definition is_closed (w : World) : bool :=
  negb (open (this w)) && Streams.closed (writer w).

(** Neither [closeSSE] nor [pushData] keeps the promise a [write] or a
    [close] returns: lines 54-56 and 68-69 are bare statements, with no
    [await] and no [catch].  A promise that rejects is therefore an
    unhandled rejection, the error the host of the instance gets to
    see. *)
Definition unhandled_rejections (w : World) : list Streams.request :=
  Streams.rejected (writer w).

Definition is_close (r : Streams.request) : bool :=
  match r with
  | Streams.Close => true
  | Streams.Write _ => false
  end.

(** How often the physical close of the writer has been attempted. *)
Definition close_attempts (w : World) : nat :=
  List.length (filter is_close (Streams.issued (writer w))).

(** The object literal of [pushData], allocated at [l]. *)
Definition data_envelope (l : loc) (data : value) : value :=
  VObject l [(js "payload", data); (js "status", VString (js "running"))].

(** The text [JSON.stringify] produces for that literal, given what
    the payload serialises to; an [undefined] payload is left out. *)
Definition envelope_prefix : jsstring := js "{" ++ quoted "payload" ++ js ":".

Definition envelope_suffix : jsstring :=
  js "," ++ quoted "status" ++ js ":" ++ quoted "running" ++ js "}".

Definition envelope_text (payload : option jsstring) : jsstring :=
  match payload with
  | Some text => (envelope_prefix ++ text) ++ envelope_suffix
  | None => js "{" ++ quoted "status" ++ js ":" ++ quoted "running" ++ js "}"
  end.

Definition chunk_eq_dec : forall a b : list byte, {a = b} + {a <> b} :=
  list_eq_dec Byte.byte_eq_dec.

(** How many termination envelopes a sequence of chunks carries. *)
Definition termination_frames (chunks : list (list byte)) : nat :=
  count_occ chunk_eq_dec chunks termination_chunk.

(** The calls a method makes on the writer: what it adds to [issued]. *)
Definition issued_by {A : Type} (m : M World A) (w : World) : list Streams.request :=
  skipn (List.length (Streams.issued (writer w)))
        (Streams.issued (writer (exec m w))).

(** Operations other than an explicit [closeSSE] and the abort. *)
Definition keeps_open (o : op) : bool :=
  match o with
  | OpenSSE | PushData _ => true
  | CloseSSE | Abort => false
  end.

(** What holds of every instance, whatever has been called on it: the
    tag is the one given at construction, the abort handler is
    installed, and the wire carries a termination envelope exactly when
    the writer has been closed. *)
Record invariant (tag : jsstring) (w : World) : Prop := {
  inv_tag : eventTag (this w) = tag;
  inv_handler : onabort (signal (request w)) = Some ConnectionAborted;
  inv_frames :
    termination_frames (Streams.wire (writer w)) =
    if Streams.closed (writer w) then 1 else 0
}.

End Server.

(** ** [class EssenceSSEClient] *)

Module Client.

Inductive readyState := CONNECTING | OPEN | CLOSED.

(** The arrow function passed to [source.addEventListener]. *)
Inductive listener := OnTaggedEvent.

Record EventSource := {
  url : jsstring;
  ready : readyState;
  listeners : list (jsstring * listener)
}.

Record MessageEvent := {
  type : jsstring;
  data : jsstring
}.

Record EssenceSSEClient := { eventTag : jsstring }.

(** [dataUpdated] is the user's callback.  The class only calls it, so
    the world records every call with its argument, in order; what the
    callback does by itself is outside the class.  [reported] holds the
    exceptions that left a listener and were reported by the platform. *)
Record World := {
  this : EssenceSSEClient;
  source : EventSource;
  console : list jsstring;
  heap_next : loc;
  dataUpdated : list value;
  reported : list error
}.

(** *** Elementary effects *)

Definition console_log (line : jsstring) : M World unit :=
  modify (fun w =>
    {| this := this w; source := source w; console := console w ++ [line];
       heap_next := heap_next w; dataUpdated := dataUpdated w;
       reported := reported w |}).

Definition JSON_parse (text : jsstring) : M World value :=
  fun w =>
    match JSON.parse text (heap_next w) with
    | Normal (v, next) =>
        (Normal v,
         {| this := this w; source := source w; console := console w;
            heap_next := next; dataUpdated := dataUpdated w;
            reported := reported w |})
    | Throw e => (Throw e, w)
    end.

(** [source.close()] *)
Definition source_close : M World unit :=
  modify (fun w =>
    {| this := this w;
       source := {| url := url (source w); ready := CLOSED;
                    listeners := listeners (source w) |};
       console := console w; heap_next := heap_next w;
       dataUpdated := dataUpdated w; reported := reported w |}).

Definition call_dataUpdated (sseData : value) : M World unit :=
  modify (fun w =>
    {| this := this w; source := source w; console := console w;
       heap_next := heap_next w; dataUpdated := dataUpdated w ++ [sseData];
       reported := reported w |}).

Local Open Scope method_scope.

(** *** The listener, lines 80-91 *)
Definition on_tagged_event (event : MessageEvent) : M World unit :=
  console_log (data event) ;;
  payload <- JSON_parse (data event) ;;
  text <- lift (ToString payload) ;;
  console_log (js "Parsed payload: " ++ text) ;;
  if IsStrictlyEqual payload TERMINATION_PAYLOAD then
    source_close
  else
    call_dataUpdated payload.

Definition run_listener (l : listener) (event : MessageEvent) : M World unit :=
  match l with
  | OnTaggedEvent => on_tagged_event event
  end.

(** *** [constructor(url, eventTag, dataUpdated)] *)
Definition constructor (u tag : jsstring) (rt : Runtime) : World :=
  {| this := {| eventTag := tag |};
     source := {| url := u; ready := CONNECTING;
                  listeners := [(tag, OnTaggedEvent)] |};
     console := rt_console rt;
     heap_next := rt_heap_next rt;
     dataUpdated := [];
     reported := [] |}.

(** *** Event dispatch by the platform

    An exception that leaves a listener is reported and the listener
    stays registered (DOM standard, inner invoke).  A closed
    [EventSource] dispatches nothing (HTML standard, 9.2.6). *)
Definition report (e : error) (w : World) : World :=
  {| this := this w; source := source w; console := console w;
     heap_next := heap_next w; dataUpdated := dataUpdated w;
     reported := reported w ++ [e] |}.

Definition invoke (event : MessageEvent) (w : World)
           (entry : jsstring * listener) : World :=
  if jsstring_eqb (fst entry) (type event) then
    match run_listener (snd entry) event w with
    | (Normal _, w') => w'
    | (Throw e, w') => report e w'
    end
  else w.

Definition dispatch (w : World) (event : MessageEvent) : World :=
  match ready (source w) with
  | CLOSED => w
  | _ => fold_left (invoke event) (listeners (source w)) w
  end.

(** A stream of messages, delivered in order. *)
Definition deliver (events : list MessageEvent) (w : World) : World :=
  fold_left dispatch events w.

(** The connection is established: [CONNECTING] becomes [OPEN]. *)
Definition announce (w : World) : World :=
  match ready (source w) with
  | CONNECTING =>
      {| this := this w;
         source := {| url := url (source w); ready := OPEN;
                      listeners := listeners (source w) |};
         console := console w; heap_next := heap_next w;
         dataUpdated := dataUpdated w; reported := reported w |}
  | _ => w
  end.

(** The module constant exists in the realm of this world. *)
Definition module_evaluated (w : World) : Prop := (0 < heap_next w)%N.

Definition source_closed (w : World) : bool :=
  match ready (source w) with
  | CLOSED => true
  | _ => false
  end.

(** A live subscription of the class: its one listener, on its tag,
    on a source that has not been closed. *)
Record subscribed (tag : jsstring) (w : World) : Prop := {
  sub_listener : listeners (source w) = [(tag, OnTaggedEvent)];
  sub_open : source_closed w = false;
  sub_module : module_evaluated w
}.

(** Two worlds that differ in their diagnostics only. *)
Definition same_state (w1 w2 : World) : Prop :=
  this w1 = this w2 /\ source w1 = source w2
  /\ heap_next w1 = heap_next w2 /\ dataUpdated w1 = dataUpdated w2.

(** The world after the listener has logged [lines], and after it has
    also called [dataUpdated] on [v]. *)
Definition logged (lines : list jsstring) (next : loc) (w : World) : World :=
  {| this := this w; source := source w; console := console w ++ lines;
     heap_next := next; dataUpdated := dataUpdated w; reported := reported w |}.

Definition called (lines : list jsstring) (next : loc) (v : value) (w : World) : World :=
  {| this := this w; source := source w; console := console w ++ lines;
     heap_next := next; dataUpdated := dataUpdated w ++ [v]; reported := reported w |}.

(** The termination envelope as [JSON.parse] rebuilds it at [l]. *)
Definition parsed_termination (l : loc) : value :=
  VObject l [(js "payload", VNull); (js "status", VString (js "terminate"))].

(** A message body the listener takes to [dataUpdated]: JSON whose
    value can be printed on the console. *)
Definition accepted (body : jsstring) : Prop :=
  forall next, exists v n text,
    JSON.parse body next = Normal (v, n) /\ ToString v = Normal text.

End Client.

(** ** Concrete inputs *)

Module Examples.

Definition progress : jsstring := js "progress".

(** A request whose signal has not fired and carries no handler yet. *)
Definition incoming : Server.NextRequest :=
  {| Server.signal := {| Server.onabort := None; Server.aborted := false |} |}.

(** [new EssenceSSEServer(request, "progress")] right after the module
    has been loaded. *)
Definition emitter : Server.World :=
  Server.constructor incoming progress module_loaded.

(** [{ percent: n }], an object of the caller, allocated at [l]. *)
Definition percent (l : loc) (n : Z) : value :=
  VObject l [(js "percent", VNumber (Finite n 0))].


Definition ten_percent : value := percent 7%N 10.

(** The body of the data frame the server writes for [{ percent: n }]. *)
Definition data_body (n : Z) : jsstring :=
  match JSON.stringify (Server.data_envelope 0%N (percent 7%N n)) with
  | Normal (Some text) => text
  | _ => []
  end.

Definition frame (tag body : jsstring) : Client.MessageEvent :=
  {| Client.type := tag; Client.data := body |}.

(** [new EssenceSSEClient("/api/progress", "progress", dataUpdated)],
    connected. *)
Definition receiver : Client.World :=
  Client.announce (Client.constructor (js "/api/progress") progress module_loaded).

End Examples.


(** ** Shapes of what the server writes *)

Module Wire.

Import Server.

(** The chunks [pushData(data)] hands to the writer of an instance
    tagged [tag]: the tag chunk and the serialised envelope, or
    nothing when [JSON.stringify] throws. *)
Definition pushed (tag : jsstring) (data : value) : list (list byte) :=
  match JSON.stringify (data_envelope 0%N data) with
  | Normal payload => [tag_chunk tag; TextEncoder.encode_arg payload]
  | Throw _ => []
  end.

(** What an operation that leaves the writer open writes. *)
Definition pushed_by (tag : jsstring) (o : op) : list (list byte) :=
  match o with
  | PushData data => pushed tag data
  | OpenSSE | CloseSSE | Abort => []
  end.

(** A sequence of chunks made of pairs, each led by the tag chunk. *)
Fixpoint framed (tag : jsstring) (chunks : list (list byte)) : Prop :=
  match chunks with
  | [] => True
  | [_] => False
  | lead :: _ :: rest => lead = tag_chunk tag /\ framed tag rest
  end.

(** Line feed and carriage return, as code units and as bytes. *)
Definition breaks_line (c : code_unit) : bool := ((c =? 0x0A) || (c =? 0x0D))%N.

Definition line_byte (b : byte) : bool := Byte.eqb b x0a || Byte.eqb b x0d.

Definition unbroken (s : jsstring) : Prop := Forall (fun c => breaks_line c = false) s.

Definition line_free (chunk : list byte) : Prop :=
  Forall (fun b => line_byte b = false) chunk.

(** Code units from the space upwards: no control character. *)
Definition printable (s : jsstring) : Prop := Forall (fun c => (0x20 <= c)%N) s.

End Wire.

(** ** Messages as the client sees them *)

Module Inbox.

(** Whether a message is on the tag the client listens to. *)
Definition own (tag : jsstring) (ev : Client.MessageEvent) : bool :=
  jsstring_eqb (Client.type ev) tag.

(** The envelope [pushData] builds around [data], as [JSON.parse]
    rebuilds it at [l] from its text. *)
Definition received (l : loc) (data : value) : value :=
  VObject l [(js "payload", data); (js "status", VString (js "running"))].

End Inbox.

(** ** [openSSE] once a reader holds the stream *)

Module Reopen.

Import Server.

Local Open Scope method_scope.

(** The readable side of the instance's stream, as the platform sees
    it.  It is locked or disturbed by whoever consumes the body of a
    response built on it, not by the class. *)
Inductive readable_state := Untouched | LockedOrDisturbed.

(** [openSSE()] in either case.  Line 34 raises the flag first; line 35
    then builds the response, and [new NextResponse] refuses a locked
    or disturbed stream with a [TypeError] (Fetch standard, extracting
    a body). *)
Definition openSSE_when (readable : readable_state) : M World NextResponse :=
  match readable with
  | Untouched => openSSE
  | LockedOrDisturbed =>
      set_open true ;;
      lift (Throw (TypeError "Response body object should not be disturbed or locked"))
  end.

Definition is_openSSE (o : op) : bool :=
  match o with
  | OpenSSE => true
  | PushData _ | CloseSSE | Abort => false
  end.

(** A sequence of operations without its [openSSE] calls. *)
Definition without_openSSE (ops : list op) : list op :=
  filter (fun o => negb (is_openSSE o)) ops.

(** Two worlds that differ in the [open] flag at most. *)
Definition same_but_open (w1 w2 : World) : Prop :=
  RESPONSE_STREAM (this w1) = RESPONSE_STREAM (this w2)
  /\ RESPONSE_STREAM_WRITER (this w1) = RESPONSE_STREAM_WRITER (this w2)
  /\ eventTag (this w1) = eventTag (this w2)
  /\ request w1 = request w2
  /\ console w1 = console w2
  /\ heap_next w1 = heap_next w2.

End Reopen.


(** * Facts about the platform model *)

Ltac splits := repeat match goal with |- _ /\ _ => split end.

Create Rewrite HintDb writer.

Module PlatformFacts.

Import TextEncoder.

Lemma jsstring_eqb_eq (a b : jsstring) : jsstring_eqb a b = true <-> a = b.
Proof.
  unfold jsstring_eqb. destruct (list_eq_dec N.eq_dec a b); split; congruence.
Qed.

Lemma jsstring_eqb_refl (a : jsstring) : jsstring_eqb a a = true.
Proof. now apply jsstring_eqb_eq. Qed.

Lemma jsstring_eqb_neq (a b : jsstring) : a <> b -> jsstring_eqb a b = false.
Proof.
  intros H. destruct (jsstring_eqb a b) eqn:E; [|reflexivity].
  apply jsstring_eqb_eq in E. contradiction.
Qed.

Lemma encode_one (c : code_unit) :
  encode [c] =
  if is_lead_surrogate c || is_trail_surrogate c
  then replacement
  else utf8_of_code_point c.
Proof.
  cbn [encode].
  destruct (is_lead_surrogate c), (is_trail_surrogate c);
    cbn [orb]; now rewrite ?app_nil_r.
Qed.

Lemma encode_two (c d : code_unit) (r : jsstring) :
  encode (c :: d :: r) =
  if is_lead_surrogate c then
    if is_trail_surrogate d
    then utf8_of_code_point (pair_code_point c d) ++ encode r
    else replacement ++ encode (d :: r)
  else if is_trail_surrogate c
       then replacement ++ encode (d :: r)
       else utf8_of_code_point c ++ encode (d :: r).
Proof. reflexivity. Qed.

Lemma encode_app_pair (b : jsstring) :
  starts_clean b ->
  forall a,
    encode (a ++ b) = encode a ++ encode b
    /\ forall c, encode ((c :: a) ++ b) = encode (c :: a) ++ encode b.
Proof.
  intros Hb. induction a as [|d a [IH1 IH2]].
  - split; [reflexivity|]. intros c.
    change (([c] ++ b)) with (c :: b). rewrite encode_one.
    destruct b as [|d b].
    + rewrite encode_one. now rewrite app_nil_r.
    + cbn [starts_clean] in Hb. rewrite encode_two, Hb.
      destruct (is_lead_surrogate c), (is_trail_surrogate c); reflexivity.
  - split; [apply IH2|]. intros c.
    change ((c :: d :: a) ++ b) with (c :: d :: (a ++ b)).
    rewrite !encode_two.
    change (d :: a ++ b) with ((d :: a) ++ b).
    rewrite IH1, (IH2 d).
    destruct (is_lead_surrogate c), (is_trail_surrogate d), (is_trail_surrogate c);
      now rewrite app_assoc.
Qed.

(** Encoding distributes over a concatenation, unless a surrogate pair
    straddles the seam. *)
Lemma encode_app (a b : jsstring) :
  starts_clean b -> encode (a ++ b) = encode a ++ encode b.
Proof. intros Hb. now apply encode_app_pair. Qed.

(** A code unit below [0x80] is one byte and pairs with nothing. *)
Lemma encode_ascii (c : code_unit) (s : jsstring) :
  (c <? 0x80)%N = true -> encode (c :: s) = octet c :: encode s.
Proof.
  intros H. apply N.ltb_lt in H.
  assert (Hl : is_lead_surrogate c = false).
  { unfold is_lead_surrogate. apply andb_false_iff. left. apply N.leb_gt. lia. }
  assert (Ht : is_trail_surrogate c = false).
  { unfold is_trail_surrogate. apply andb_false_iff. left. apply N.leb_gt. lia. }
  assert (Hu : utf8_of_code_point c = [octet c]).
  { unfold utf8_of_code_point. now rewrite (proj2 (N.ltb_lt _ _) H). }
  destruct s as [|d s].
  - rewrite encode_one, Hl, Ht. exact Hu.
  - rewrite encode_two, Hl, Ht, Hu. reflexivity.
Qed.

Lemma skipn_length_app {A : Type} (l r : list A) : skipn (List.length l) (l ++ r) = r.
Proof. induction l as [|a l IH]; [reflexivity|exact IH]. Qed.

(** The end of a concatenation is its right part. *)
Lemma app_tail {A : Type} (l r whole : list A) :
  l ++ r = whole -> skipn (List.length whole - List.length r) whole = r.
Proof.
  intros <-. rewrite length_app.
  replace (List.length l + List.length r - List.length r) with (List.length l) by lia.
  apply skipn_length_app.
Qed.

(** ** The writer *)

Lemma closed_write (chunk : list byte) (w : Streams.Writer) :
  Streams.closed (Streams.write chunk w) = Streams.closed w.
Proof. reflexivity. Qed.

Lemma wire_write (chunk : list byte) (w : Streams.Writer) :
  Streams.wire (Streams.write chunk w) =
  if Streams.closed w then Streams.wire w else Streams.wire w ++ [chunk].
Proof. reflexivity. Qed.

Lemma issued_write (chunk : list byte) (w : Streams.Writer) :
  Streams.issued (Streams.write chunk w) = Streams.issued w ++ [Streams.Write chunk].
Proof. reflexivity. Qed.

Lemma rejected_write (chunk : list byte) (w : Streams.Writer) :
  Streams.rejected (Streams.write chunk w) =
  if Streams.closed w then Streams.rejected w ++ [Streams.Write chunk]
  else Streams.rejected w.
Proof. reflexivity. Qed.

Lemma closed_close (w : Streams.Writer) : Streams.closed (Streams.close w) = true.
Proof. reflexivity. Qed.

Lemma wire_close (w : Streams.Writer) : Streams.wire (Streams.close w) = Streams.wire w.
Proof. reflexivity. Qed.

Lemma issued_close (w : Streams.Writer) :
  Streams.issued (Streams.close w) = Streams.issued w ++ [Streams.Close].
Proof. reflexivity. Qed.

Lemma rejected_close (w : Streams.Writer) :
  Streams.rejected (Streams.close w) =
  if Streams.closed w then Streams.rejected w ++ [Streams.Close]
  else Streams.rejected w.
Proof. reflexivity. Qed.

End PlatformFacts.

#[global] Hint Rewrite
  PlatformFacts.closed_write PlatformFacts.wire_write PlatformFacts.issued_write
  PlatformFacts.rejected_write PlatformFacts.closed_close PlatformFacts.wire_close
  PlatformFacts.issued_close PlatformFacts.rejected_close : writer.


(** * Facts about the JSON reader *)

Module JSONFacts.

Import JSON.

(** ** Every reader consumes input *)

Lemma skip_ws_length (s : jsstring) : List.length (skip_ws s) <= List.length s.
Proof.
  induction s as [|c s IH]; [reflexivity|].
  cbn [skip_ws]. destruct (is_ws c); cbn [List.length]; lia.
Qed.

Lemma skip_ws_cons (s : jsstring) (c : code_unit) (r : jsstring) :
  skip_ws s = c :: r -> List.length r < List.length s.
Proof.
  intros H. pose proof (skip_ws_length s) as L. rewrite H in L.
  cbn [List.length] in L. lia.
Qed.

Lemma string_chars_length (s : jsstring) :
  forall cs r, string_chars s = Some (cs, r) -> List.length r < List.length s.
Proof.
  remember (List.length s) as n eqn:Hn.
  assert (Hle : List.length s <= n) by lia. clear Hn.
  revert s Hle. induction n as [|n IH]; intros s Hle cs r H.
  - destruct s; [discriminate H|cbn in Hle; lia].
  - destruct s as [|c rest]; [discriminate H|].
    cbn [List.length] in Hle. cbn [string_chars] in H.
    destruct (c =? 34)%N.
    { inversion H; subst. cbn [List.length]. lia. }
    destruct (c =? 92)%N.
    { destruct rest as [|e rest1]; [discriminate H|].
      cbn [List.length] in *.
      destruct (e =? 117)%N.
      - destruct rest1 as [|h1 [|h2 [|h3 [|h4 rest2]]]]; try discriminate H.
        destruct (hex_value h1), (hex_value h2), (hex_value h3), (hex_value h4);
          try discriminate H.
        destruct (string_chars rest2) as [[cs' r']|] eqn:E; [|discriminate H].
        inversion H; subst. cbn [List.length] in *.
        apply IH in E; lia.
      - destruct (simple_escape e); [|discriminate H].
        destruct (string_chars rest1) as [[cs' r']|] eqn:E; [|discriminate H].
        inversion H; subst. apply IH in E; lia. }
    destruct (c <? 32)%N; [discriminate H|].
    destruct (string_chars rest) as [[cs' r']|] eqn:E; [|discriminate H].
    inversion H; subst. apply IH in E; cbn [List.length]; lia.
Qed.

Lemma digits_length (s : jsstring) :
  forall acc count v n r,
    digits s acc count = (v, n, r) -> List.length r <= List.length s.
Proof.
  induction s as [|c s IH]; intros acc count v n r H; cbn [digits] in H.
  - inversion H; subst. reflexivity.
  - destruct (is_digit c).
    + apply IH in H. cbn [List.length]. lia.
    + inversion H; subst. reflexivity.
Qed.

Lemma fraction_length (s : jsstring) (int : Z) :
  forall m fd r, fraction s int = Some (m, fd, r) -> List.length r <= List.length s.
Proof.
  intros m fd r H. unfold fraction in H.
  destruct s as [|c s]; [inversion H; subst; reflexivity|].
  destruct (c =? 46)%N.
  - destruct (digits s int 0) as [[m' n'] r'] eqn:E.
    destruct (n' =? 0)%Z; [discriminate H|]. inversion H; subst.
    apply digits_length in E. cbn [List.length]. lia.
  - inversion H; subst. reflexivity.
Qed.

Lemma exponent_length (s : jsstring) :
  forall ex r, exponent s = Some (ex, r) -> List.length r <= List.length s.
Proof.
  intros ex r H. unfold exponent in H.
  destruct s as [|c s]; [inversion H; subst; reflexivity|].
  destruct ((c =? 101) || (c =? 69))%N.
  - destruct (match s with
              | [] => (false, s)
              | d :: r' =>
                  if (d =? 45)%N then (true, r')
                  else if (d =? 43)%N then (false, r') else (false, s)
              end) as [neg r1] eqn:E1.
    assert (L1 : List.length r1 <= List.length s).
    { destruct s as [|d r']; [inversion E1; subst; reflexivity|].
      destruct (d =? 45)%N; [inversion E1; subst; cbn [List.length]; lia|].
      destruct (d =? 43)%N; inversion E1; subst; cbn [List.length]; lia. }
    destruct (digits r1 0 0) as [[v n] r2] eqn:E2.
    destruct (n =? 0)%Z; [discriminate H|]. inversion H; subst.
    apply digits_length in E2. cbn [List.length]. lia.
  - inversion H; subst. reflexivity.
Qed.

Lemma parse_number_length (s : jsstring) :
  forall x r, parse_number s = Some (x, r) -> List.length r < List.length s.
Proof.
  intros x r H. unfold parse_number in H.
  destruct (match s with
            | [] => (false, s)
            | c :: r0 => if (c =? 45)%N then (true, r0) else (false, s)
            end) as [neg s1] eqn:E0.
  assert (L0 : List.length s1 <= List.length s).
  { destruct s as [|c r0]; [inversion E0; subst; reflexivity|].
    destruct (c =? 45)%N; inversion E0; subst; cbn [List.length]; lia. }
  destruct s1 as [|c r1]; [discriminate H|].
  destruct (is_digit c) eqn:Hd; [|discriminate H].
  destruct (if (c =? 48)%N then (0%Z, r1)
            else let '(v, _, r2) := digits (c :: r1) 0 0 in (v, r2))
    as [int s2] eqn:E1.
  assert (L1 : List.length s2 <= List.length r1).
  { destruct (c =? 48)%N; [inversion E1; subst; reflexivity|].
    cbn [digits] in E1. rewrite Hd in E1.
    destruct (digits r1 (0 * 10 + Z.of_N (c - 48)) (0 + 1)) as [[v n] r2] eqn:E2.
    inversion E1; subst. now apply digits_length in E2. }
  destruct (fraction s2 int) as [[[m fd] s3]|] eqn:E2; [|discriminate H].
  destruct (exponent s3) as [[ex s4]|] eqn:E3; [|discriminate H].
  inversion H; subst.
  apply fraction_length in E2. apply exponent_length in E3.
  cbn [List.length] in *. lia.
Qed.

Lemma strip_prefix_length (p : jsstring) :
  forall s r, strip_prefix p s = Some r -> List.length s = List.length p + List.length r.
Proof.
  induction p as [|a p IH]; intros s r H; cbn [strip_prefix] in H.
  - inversion H; subst. reflexivity.
  - destruct s as [|b s]; [discriminate H|].
    destruct (a =? b)%N; [|discriminate H].
    apply IH in H. cbn [List.length]. lia.
Qed.


(** ** What a successful reading returns

    The rest is shorter than the input, the allocation counter never
    goes back, and an object or array returned at the top sits at the
    location the counter pointed to. *)

Ltac reader_step H :=
  cbn [parse_value parse_elements parse_members] in H.

Ltac ws_cons E :=
  let L := fresh "L" in pose proof (skip_ws_cons _ _ _ E) as L.

Lemma parse_sound (fuel : nat) :
  (forall s next v r n,
      parse_value fuel s next = Parsed v r n ->
      List.length r < List.length s /\ (next <= n)%N
      /\ (identity v = None \/ identity v = Some next))
  /\ (forall s self next acc v r n,
      parse_elements fuel s self next acc = Parsed v r n ->
      List.length r < List.length s /\ (next <= n)%N /\ identity v = Some self)
  /\ (forall s self next acc v r n,
      parse_members fuel s self next acc = Parsed v r n ->
      List.length r < List.length s /\ (next <= n)%N /\ identity v = Some self).
Proof.
  induction fuel as [|f (IHv & IHe & IHm)].
  { repeat split; intros; discriminate. }
  split; [|split].
  - intros s next v r n H. reader_step H.
    destruct (skip_ws s) as [|c rest] eqn:E; [discriminate H|]. ws_cons E.
    destruct (c =? 123)%N.
    { destruct (skip_ws rest) as [|d rest'] eqn:E'; [discriminate H|]. ws_cons E'.
      destruct (d =? 125)%N.
      - inversion H; subst. cbn [identity]. repeat split; auto; lia.
      - apply IHm in H as (Hl & Hn & Hi). repeat split; auto; lia. }
    destruct (c =? 91)%N.
    { destruct (skip_ws rest) as [|d rest'] eqn:E'; [discriminate H|]. ws_cons E'.
      destruct (d =? 93)%N.
      - inversion H; subst. cbn [identity]. repeat split; auto; lia.
      - apply IHe in H as (Hl & Hn & Hi). repeat split; auto; lia. }
    destruct (c =? 34)%N.
    { destruct (string_chars rest) as [[str r']|] eqn:E'; [|discriminate H].
      apply string_chars_length in E'. inversion H; subst.
      cbn [identity]. repeat split; auto; lia. }
    destruct ((c =? 45)%N || is_digit c).
    { destruct (parse_number (c :: rest)) as [[x r']|] eqn:E'; [|discriminate H].
      apply parse_number_length in E'. inversion H; subst.
      cbn [identity List.length] in *. repeat split; auto; lia. }
    destruct (strip_prefix (js "true") (c :: rest)) as [r'|] eqn:E1.
    { apply strip_prefix_length in E1. inversion H; subst.
      cbn [identity List.length js map list_ascii_of_string] in *.
      repeat split; auto; lia. }
    destruct (strip_prefix (js "false") (c :: rest)) as [r'|] eqn:E2.
    { apply strip_prefix_length in E2. inversion H; subst.
      cbn [identity List.length js map list_ascii_of_string] in *.
      repeat split; auto; lia. }
    destruct (strip_prefix (js "null") (c :: rest)) as [r'|] eqn:E3; [|discriminate H].
    apply strip_prefix_length in E3. inversion H; subst.
    cbn [identity List.length js map list_ascii_of_string] in *.
    repeat split; auto; lia.
  - intros s self next acc v r n H. reader_step H.
    destruct (parse_value f s next) as [v0 r0 n0| |] eqn:E; try discriminate H.
    apply IHv in E as (Hl & Hn & _).
    destruct (skip_ws r0) as [|c r'] eqn:E'; [discriminate H|]. ws_cons E'.
    destruct (c =? 44)%N.
    { apply IHe in H as (Hl' & Hn' & Hi). repeat split; auto; lia. }
    destruct (c =? 93)%N; [|discriminate H].
    inversion H; subst. cbn [identity]. repeat split; auto; lia.
  - intros s self next acc v r n H. reader_step H.
    destruct (skip_ws s) as [|c r0] eqn:E; [discriminate H|]. ws_cons E.
    destruct (c =? 34)%N; [|discriminate H].
    destruct (string_chars r0) as [[k r1]|] eqn:Ek; [|discriminate H].
    apply string_chars_length in Ek.
    destruct (skip_ws r1) as [|c1 r2] eqn:E1; [discriminate H|]. ws_cons E1.
    destruct (c1 =? 58)%N; [|discriminate H].
    destruct (parse_value f r2 next) as [v0 r3 n0| |] eqn:Ev; try discriminate H.
    apply IHv in Ev as (Hl & Hn & _).
    destruct (skip_ws r3) as [|c2 r4] eqn:E3; [discriminate H|]. ws_cons E3.
    destruct (c2 =? 44)%N.
    { apply IHm in H as (Hl' & Hn' & Hi). repeat split; auto; lia. }
    destruct (c2 =? 125)%N; [|discriminate H].
    inversion H; subst. cbn [identity]. repeat split; auto; lia.
Qed.


(** ** The fuel [JSON.parse] provides is enough *)

Lemma parse_fuel (fuel : nat) :
  (forall s next,
      2 * List.length s < fuel -> parse_value fuel s next <> OutOfFuel)
  /\ (forall s self next acc,
      2 * List.length s + 1 < fuel -> parse_elements fuel s self next acc <> OutOfFuel)
  /\ (forall s self next acc,
      2 * List.length s + 1 < fuel -> parse_members fuel s self next acc <> OutOfFuel).
Proof.
  induction fuel as [|f (IHv & IHe & IHm)].
  { repeat split; intros; lia. }
  destruct (parse_sound f) as (Sv & _ & _).
  split; [|split].
  - intros s next Hf. cbn [parse_value].
    destruct (skip_ws s) as [|c rest] eqn:E; [discriminate|]. ws_cons E.
    destruct (c =? 123)%N.
    { destruct (skip_ws rest) as [|d rest'] eqn:E'; [discriminate|].
      destruct (d =? 125)%N; [discriminate|]. apply IHm. lia. }
    destruct (c =? 91)%N.
    { destruct (skip_ws rest) as [|d rest'] eqn:E'; [discriminate|].
      destruct (d =? 93)%N; [discriminate|]. apply IHe. lia. }
    destruct (c =? 34)%N.
    { destruct (string_chars rest) as [[str r']|]; discriminate. }
    destruct ((c =? 45)%N || is_digit c).
    { destruct (parse_number (c :: rest)) as [[x r']|]; discriminate. }
    destruct (strip_prefix (js "true") (c :: rest)); [discriminate|].
    destruct (strip_prefix (js "false") (c :: rest)); [discriminate|].
    destruct (strip_prefix (js "null") (c :: rest)); discriminate.
  - intros s self next acc Hf. cbn [parse_elements].
    destruct (parse_value f s next) as [v0 r0 n0| |] eqn:E.
    + apply Sv in E as (Hl & _).
      destruct (skip_ws r0) as [|c r'] eqn:E'; [discriminate|]. ws_cons E'.
      destruct (c =? 44)%N; [apply IHe; lia|].
      destruct (c =? 93)%N; discriminate.
    + discriminate.
    + exfalso. revert E. apply IHv. lia.
  - intros s self next acc Hf. cbn [parse_members].
    destruct (skip_ws s) as [|c r0] eqn:E; [discriminate|]. ws_cons E.
    destruct (c =? 34)%N; [|discriminate].
    destruct (string_chars r0) as [[k r1]|] eqn:Ek; [|discriminate].
    apply string_chars_length in Ek.
    destruct (skip_ws r1) as [|c1 r2] eqn:E1; [discriminate|]. ws_cons E1.
    destruct (c1 =? 58)%N; [|discriminate].
    destruct (parse_value f r2 next) as [v0 r3 n0| |] eqn:Ev.
    + apply Sv in Ev as (Hl & _).
      destruct (skip_ws r3) as [|c2 r4] eqn:E3; [discriminate|]. ws_cons E3.
      destruct (c2 =? 44)%N; [apply IHm; lia|].
      destruct (c2 =? 125)%N; discriminate.
    + discriminate.
    + exfalso. revert Ev. apply IHv. lia.
Qed.

(** [JSON.parse] never fails for want of fuel: a [SyntaxError] means
    the text is not JSON. *)
Lemma parse_value_fuel (text : jsstring) (next : loc) :
  parse_value (fuel_for text) text next <> OutOfFuel.
Proof. apply parse_fuel. unfold fuel_for. lia. Qed.

(** ** Whether a text is JSON does not depend on the allocator *)

Lemma parse_shape (fuel : nat) :
  (forall s n n',
      shape (parse_value fuel s n) = shape (parse_value fuel s n'))
  /\ (forall s self self' n n' acc acc',
      shape (parse_elements fuel s self n acc)
      = shape (parse_elements fuel s self' n' acc'))
  /\ (forall s self self' n n' acc acc',
      shape (parse_members fuel s self n acc)
      = shape (parse_members fuel s self' n' acc')).
Proof.
  induction fuel as [|f (IHv & IHe & IHm)].
  { repeat split. }
  split; [|split].
  - intros s n n'. cbn [parse_value].
    destruct (skip_ws s) as [|c rest]; [reflexivity|].
    destruct (c =? 123)%N.
    { destruct (skip_ws rest) as [|d rest']; [reflexivity|].
      destruct (d =? 125)%N; [reflexivity|apply IHm]. }
    destruct (c =? 91)%N.
    { destruct (skip_ws rest) as [|d rest']; [reflexivity|].
      destruct (d =? 93)%N; [reflexivity|apply IHe]. }
    destruct (c =? 34)%N.
    { destruct (string_chars rest) as [[str r']|]; reflexivity. }
    destruct ((c =? 45)%N || is_digit c).
    { destruct (parse_number (c :: rest)) as [[x r']|]; reflexivity. }
    destruct (strip_prefix (js "true") (c :: rest)); [reflexivity|].
    destruct (strip_prefix (js "false") (c :: rest)); [reflexivity|].
    destruct (strip_prefix (js "null") (c :: rest)); reflexivity.
  - intros s self self' n n' acc acc'. cbn [parse_elements].
    pose proof (IHv s n n') as E.
    destruct (parse_value f s n) as [v0 r0 n0| |],
             (parse_value f s n') as [v0' r0' n0'| |];
      cbn [shape] in E; try discriminate E; try reflexivity.
    inversion E; subst r0'.
    destruct (skip_ws r0) as [|c r']; [reflexivity|].
    destruct (c =? 44)%N; [apply IHe|].
    destruct (c =? 93)%N; reflexivity.
  - intros s self self' n n' acc acc'. cbn [parse_members].
    destruct (skip_ws s) as [|c r0]; [reflexivity|].
    destruct (c =? 34)%N; [|reflexivity].
    destruct (string_chars r0) as [[k r1]|]; [|reflexivity].
    destruct (skip_ws r1) as [|c1 r2]; [reflexivity|].
    destruct (c1 =? 58)%N; [|reflexivity].
    pose proof (IHv r2 n n') as E.
    destruct (parse_value f r2 n) as [v0 r3 n0| |],
             (parse_value f r2 n') as [v0' r3' n0'| |];
      cbn [shape] in E; try discriminate E; try reflexivity.
    inversion E; subst r3'.
    destruct (skip_ws r3) as [|c2 r4]; [reflexivity|].
    destruct (c2 =? 44)%N; [apply IHm|].
    destruct (c2 =? 125)%N; reflexivity.
Qed.

Lemma parse_throw_everywhere (text : jsstring) (next next' : loc) (e : error) :
  parse text next = Throw e -> parse text next' = Throw e.
Proof.
  unfold parse. pose proof (proj1 (parse_shape (fuel_for text)) text next next') as E.
  destruct (parse_value (fuel_for text) text next) as [v r n| |],
           (parse_value (fuel_for text) text next') as [v' r' n'| |];
    cbn [shape] in E; try discriminate E; try (intros H; exact H).
  inversion E; subst r'. destruct (skip_ws r); [discriminate|intros H; exact H].
Qed.

(** A text that is not JSON makes [JSON.parse] throw, wherever the
    allocation counter stands; a text that is JSON is read. *)
Lemma parse_invalid (text : jsstring) (next : loc) :
  valid text = false -> exists e, parse text next = Throw e.
Proof.
  unfold valid. destruct (parse text 0%N) as [p|e] eqn:E; [discriminate|].
  intros _. exists e. now apply (parse_throw_everywhere text 0%N next).
Qed.

Lemma parse_valid (text : jsstring) (next : loc) :
  valid text = true -> exists v n, parse text next = Normal (v, n).
Proof.
  unfold valid. destruct (parse text 0%N) as [p|e] eqn:E; [|discriminate].
  intros _. destruct (parse text next) as [[v n]|e] eqn:E'; [now eauto|].
  apply (parse_throw_everywhere text next 0%N) in E'. congruence.
Qed.

(** ** A value fresh from [JSON.parse] is never [===] an older object *)

Lemma parse_fresh (text : jsstring) (next : loc) (v : value) (n : loc) :
  parse text next = Normal (v, n) ->
  (next <= n)%N /\ (identity v = None \/ identity v = Some next).
Proof.
  unfold parse.
  destruct (parse_value (fuel_for text) text next) as [v0 r0 n0| |] eqn:E;
    try discriminate.
  destruct (skip_ws r0); [|discriminate]. intros H. inversion H; subst.
  apply (proj1 (parse_sound _)) in E. tauto.
Qed.

Lemma not_the_termination_payload (v : value) (next : loc) :
  (0 < next)%N ->
  identity v = None \/ identity v = Some next ->
  IsStrictlyEqual v TERMINATION_PAYLOAD = false.
Proof.
  intros Hpos [H|H]; destruct v; cbn in H; try discriminate H; try reflexivity;
    inversion H; subst; cbn; apply N.eqb_neq; lia.
Qed.

End JSONFacts.


(** * Properties of [EssenceSSEServer] *)

Module ServerProofs.

Import Server.

(** ** What each method does to the world *)

Lemma closeSSE_exec (w : World) :
  exec closeSSE w =
  {| this := {| RESPONSE_STREAM := RESPONSE_STREAM (this w);
                RESPONSE_STREAM_WRITER :=
                  Streams.close
                    (Streams.write termination_chunk
                       (Streams.write (tag_chunk (eventTag (this w))) (writer w)));
                eventTag := eventTag (this w);
                open := false |};
     request := request w; console := console w; heap_next := heap_next w |}.
Proof. reflexivity. Qed.

Lemma closeSSE_returns (w : World) : fst (closeSSE w) = Normal tt.
Proof. reflexivity. Qed.

Lemma openSSE_exec (w : World) :
  exec openSSE w =
  {| this := {| RESPONSE_STREAM := RESPONSE_STREAM (this w);
                RESPONSE_STREAM_WRITER := writer w;
                eventTag := eventTag (this w);
                open := true |};
     request := request w; console := console w; heap_next := heap_next w |}.
Proof. reflexivity. Qed.

Lemma closeSSE_writer (w : World) :
  writer (exec closeSSE w) =
  Streams.close
    (Streams.write termination_chunk
       (Streams.write (tag_chunk (eventTag (this w))) (writer w))).
Proof. reflexivity. Qed.

Lemma closeSSE_this (w : World) :
  eventTag (this (exec closeSSE w)) = eventTag (this w)
  /\ open (this (exec closeSSE w)) = false
  /\ request (exec closeSSE w) = request w.
Proof. repeat split. Qed.

Lemma openSSE_writer (w : World) : writer (exec openSSE w) = writer w.
Proof. reflexivity. Qed.

(** [JSON.stringify] does not look at the identity of the object. *)
Lemma stringify_envelope_loc (l l' : loc) (data : value) :
  JSON.stringify (data_envelope l data) = JSON.stringify (data_envelope l' data).
Proof. reflexivity. Qed.

Lemma pushData_ok (w : World) (data : value) (payload : option jsstring) :
  JSON.stringify (data_envelope (heap_next w) data) = Normal payload ->
  pushData data w =
  (Normal tt,
   {| this := {| RESPONSE_STREAM := RESPONSE_STREAM (this w);
                 RESPONSE_STREAM_WRITER :=
                   Streams.write (TextEncoder.encode_arg payload)
                     (Streams.write (tag_chunk (eventTag (this w))) (writer w));
                 eventTag := eventTag (this w);
                 open := open (this w) |};
      request := request w; console := console w;
      heap_next := (heap_next w + 1)%N |}).
Proof.
  intros H. unfold pushData, bind, object_literal, lift.
  change (VObject (heap_next w) _) with (data_envelope (heap_next w) data).
  rewrite H. reflexivity.
Qed.

Lemma pushData_throw (w : World) (data : value) (e : error) :
  JSON.stringify (data_envelope (heap_next w) data) = Throw e ->
  pushData data w =
  (Throw e,
   {| this := this w; request := request w; console := console w;
      heap_next := (heap_next w + 1)%N |}).
Proof.
  intros H. unfold pushData, bind, object_literal, lift.
  change (VObject (heap_next w) _) with (data_envelope (heap_next w) data).
  rewrite H. reflexivity.
Qed.

Lemma pushData_writer (w : World) (data : value) :
  writer (exec (pushData data) w) =
  match JSON.stringify (data_envelope (heap_next w) data) with
  | Normal payload =>
      Streams.write (TextEncoder.encode_arg payload)
        (Streams.write (tag_chunk (eventTag (this w))) (writer w))
  | Throw _ => writer w
  end.
Proof.
  unfold exec.
  destruct (JSON.stringify (data_envelope (heap_next w) data)) as [payload|e] eqn:E.
  - now rewrite (pushData_ok _ _ _ E).
  - now rewrite (pushData_throw _ _ _ E).
Qed.

Lemma pushData_this (w : World) (data : value) :
  eventTag (this (exec (pushData data) w)) = eventTag (this w)
  /\ open (this (exec (pushData data) w)) = open (this w)
  /\ request (exec (pushData data) w) = request w.
Proof.
  unfold exec.
  destruct (JSON.stringify (data_envelope (heap_next w) data)) as [payload|e] eqn:E.
  - now rewrite (pushData_ok _ _ _ E).
  - now rewrite (pushData_throw _ _ _ E).
Qed.

(** The handler runs [closeSSE] on the instance, after one console line. *)
Lemma abort_exec (w : World) :
  aborted (signal (request w)) = false ->
  onabort (signal (request w)) = Some ConnectionAborted ->
  abort w =
  {| this := this (exec closeSSE w);
     request := {| signal := {| onabort := Some ConnectionAborted; aborted := true |} |};
     console := console w ++ [js "Connection aborted"];
     heap_next := heap_next w |}.
Proof. intros Ha Hh. unfold abort. rewrite Ha, Hh. reflexivity. Qed.

(** ** The chunks of a data frame are not the termination envelope *)

Lemma tag_chunk_bytes (tag : jsstring) :
  tag_chunk tag = TextEncoder.encode (js "event: ") ++ TextEncoder.encode tag.
Proof. reflexivity. Qed.

Lemma tag_chunk_head (tag : jsstring) :
  hd_error (tag_chunk tag) = Some (TextEncoder.octet 0x65).
Proof.
  unfold tag_chunk.
  change (js "event: " ++ tag) with (0x65%N :: (js "vent: " ++ tag)).
  now rewrite PlatformFacts.encode_ascii by reflexivity.
Qed.

Lemma tag_chunk_not_termination (tag : jsstring) : tag_chunk tag <> termination_chunk.
Proof.
  intros E. pose proof (tag_chunk_head tag) as H. rewrite E in H.
  vm_compute in H. discriminate H.
Qed.

Lemma stringify_data_envelope (l : loc) (data : value) :
  JSON.stringify (data_envelope l data) =
  match JSON.SerializeJSONProperty data with
  | Normal o => Normal (Some (envelope_text o))
  | Throw e => Throw e
  end.
Proof.
  unfold JSON.stringify, data_envelope. cbn [JSON.SerializeJSONProperty].
  destruct (JSON.SerializeJSONProperty data) as [[s|]|e]; try reflexivity.
  cbn [join envelope_text]. do 2 f_equal.
  unfold envelope_prefix, envelope_suffix. now rewrite <- !app_assoc.
Qed.

Lemma data_chunk_not_termination (l : loc) (data : value) (payload : option jsstring) :
  JSON.stringify (data_envelope l data) = Normal payload ->
  TextEncoder.encode_arg payload <> termination_chunk.
Proof.
  rewrite stringify_data_envelope.
  destruct (JSON.SerializeJSONProperty data) as [o|e]; [|discriminate].
  intros H. assert (Hp : payload = Some (envelope_text o)) by congruence.
  subst payload. clear H.
  destruct o as [s|].
  - change (TextEncoder.encode_arg (Some (envelope_text (Some s))))
      with (TextEncoder.encode ((envelope_prefix ++ s) ++ envelope_suffix)).
    rewrite PlatformFacts.encode_app by reflexivity.
    intros E. apply PlatformFacts.app_tail in E.
    vm_compute in E. discriminate E.
  - vm_compute. discriminate.
Qed.

(** ** Invariants of an instance *)

Lemma termination_frames_app (a b : list (list byte)) :
  termination_frames (a ++ b) = termination_frames a + termination_frames b.
Proof. apply count_occ_app. Qed.

Lemma termination_frames_other (c : list byte) :
  c <> termination_chunk -> termination_frames [c] = 0.
Proof.
  intros H. unfold termination_frames. cbn [count_occ].
  destruct (chunk_eq_dec c termination_chunk); [contradiction|reflexivity].
Qed.

Lemma termination_frames_one : termination_frames [termination_chunk] = 1.
Proof.
  unfold termination_frames. cbn [count_occ].
  destruct (chunk_eq_dec termination_chunk termination_chunk); congruence.
Qed.

Lemma invariant_constructor (req : NextRequest) (tag : jsstring) (rt : Runtime) :
  invariant tag (constructor req tag rt).
Proof. split; reflexivity. Qed.

Lemma invariant_openSSE (tag : jsstring) (w : World) :
  invariant tag w -> invariant tag (exec openSSE w).
Proof. intros [Ht Hh Hf]. split; assumption. Qed.

Lemma invariant_closeSSE (tag : jsstring) (w : World) :
  invariant tag w -> invariant tag (exec closeSSE w).
Proof.
  intros [Ht Hh Hf]. split; [assumption..|].
  rewrite closeSSE_writer. autorewrite with writer.
  destruct (Streams.closed (writer w)); [assumption|].
  rewrite !termination_frames_app, Hf, termination_frames_one.
  now rewrite termination_frames_other by apply tag_chunk_not_termination.
Qed.

Lemma invariant_pushData (tag : jsstring) (data : value) (w : World) :
  invariant tag w -> invariant tag (exec (pushData data) w).
Proof.
  intros [Ht Hh Hf]. destruct (pushData_this w data) as (Et & _ & Er).
  split; [congruence..|].
  rewrite pushData_writer.
  destruct (JSON.stringify (data_envelope (heap_next w) data)) as [payload|e] eqn:E;
    [|assumption].
  autorewrite with writer.
  destruct (Streams.closed (writer w)); [assumption|].
  rewrite !termination_frames_app, Hf.
  rewrite termination_frames_other by apply tag_chunk_not_termination.
  now rewrite termination_frames_other
    by apply (data_chunk_not_termination _ _ _ E).
Qed.

Lemma invariant_abort (tag : jsstring) (w : World) :
  invariant tag w -> invariant tag (abort w).
Proof.
  intros H. destruct (aborted (signal (request w))) eqn:Ha.
  - unfold abort. now rewrite Ha.
  - rewrite abort_exec by (assumption || apply H).
    destruct (invariant_closeSSE _ _ H) as [Ht _ Hf]. split; auto.
Qed.

Lemma invariant_step (tag : jsstring) (w : World) (o : op) :
  invariant tag w -> invariant tag (step w o).
Proof.
  destruct o; cbn [step];
    auto using invariant_openSSE, invariant_closeSSE, invariant_pushData, invariant_abort.
Qed.

Lemma invariant_run (tag : jsstring) (ops : list op) (w : World) :
  invariant tag w -> invariant tag (run ops w).
Proof.
  revert w. induction ops as [|o ops IH]; intros w H; [assumption|].
  cbn [run fold_left]. apply IH, invariant_step, H.
Qed.

Lemma invariant_reachable (req : NextRequest) (tag : jsstring) (rt : Runtime)
      (ops : list op) :
  invariant tag (run ops (constructor req tag rt)).
Proof. apply invariant_run, invariant_constructor. Qed.

(** Without [closeSSE] and without an abort the writer stays open and
    the signal keeps its state. *)
Lemma keeps_open_step (w : World) (o : op) :
  keeps_open o = true ->
  Streams.closed (writer (step w o)) = Streams.closed (writer w)
  /\ request (step w o) = request w.
Proof.
  destruct o as [|data| |]; cbn [keeps_open step]; try discriminate; intros _.
  - now split.
  - destruct (pushData_this w data) as (_ & _ & Er). split; [|exact Er].
    rewrite pushData_writer.
    now destruct (JSON.stringify (data_envelope (heap_next w) data)).
Qed.

Lemma keeps_open_run (ops : list op) (w : World) :
  forallb keeps_open ops = true ->
  Streams.closed (writer (run ops w)) = Streams.closed (writer w)
  /\ request (run ops w) = request w.
Proof.
  revert w. induction ops as [|o ops IH]; intros w H; [now split|].
  cbn [forallb] in H. apply andb_true_iff in H as [Ho Hops].
  cbn [run fold_left]. destruct (IH (step w o) Hops) as [Hc Hr].
  destruct (keeps_open_step w o Ho) as [Hc' Hr']. unfold run in *.
  split; congruence.
Qed.


(** ** The calls each method makes on the writer *)

Lemma closeSSE_issued (w : World) :
  issued_by closeSSE w =
  [Streams.Write (tag_chunk (eventTag (this w)));
   Streams.Write termination_chunk; Streams.Close].
Proof.
  unfold issued_by. rewrite closeSSE_writer. autorewrite with writer.
  rewrite <- !app_assoc. apply PlatformFacts.skipn_length_app.
Qed.

Lemma pushData_issued (w : World) (data : value) :
  issued_by (pushData data) w =
  match JSON.stringify (data_envelope 0%N data) with
  | Normal payload =>
      [Streams.Write (tag_chunk (eventTag (this w)));
       Streams.Write (TextEncoder.encode_arg payload)]
  | Throw _ => []
  end.
Proof.
  unfold issued_by. rewrite pushData_writer.
  rewrite (stringify_envelope_loc 0%N (heap_next w)).
  destruct (JSON.stringify (data_envelope (heap_next w) data)) as [payload|e].
  - autorewrite with writer.
    rewrite <- !app_assoc. apply PlatformFacts.skipn_length_app.
  - apply skipn_all.
Qed.

Lemma closeSSE_wire (w : World) :
  Streams.wire (writer (exec closeSSE w)) =
  if Streams.closed (writer w) then Streams.wire (writer w)
  else Streams.wire (writer w) ++ [tag_chunk (eventTag (this w)); termination_chunk].
Proof.
  rewrite closeSSE_writer. autorewrite with writer.
  destruct (Streams.closed (writer w)); [reflexivity|].
  now rewrite <- app_assoc.
Qed.

Lemma closeSSE_closed (w : World) : is_closed (exec closeSSE w) = true.
Proof. reflexivity. Qed.

(** A closed writer survives every operation, and so does its wire. *)
Lemma closed_step (w : World) (o : op) :
  Streams.closed (writer w) = true ->
  Streams.closed (writer (step w o)) = true
  /\ Streams.wire (writer (step w o)) = Streams.wire (writer w).
Proof.
  intros H.
  assert (Hc : Streams.closed (writer (exec closeSSE w)) = true
               /\ Streams.wire (writer (exec closeSSE w)) = Streams.wire (writer w)).
  { split; [reflexivity|]. now rewrite closeSSE_wire, H. }
  destruct o as [|data| |]; cbn [step].
  - now rewrite openSSE_writer.
  - rewrite pushData_writer.
    destruct (JSON.stringify (data_envelope (heap_next w) data)); [|now split].
    autorewrite with writer. now rewrite H.
  - exact Hc.
  - unfold abort. destruct (aborted (signal (request w))); [now split|].
    destruct (onabort (signal (request w))) as [[]|]; [|now split].
    exact Hc.
Qed.

(** ** The claims about the server *)

(** C2, as the code has it.  On every instance, whatever has been
    called on it before, two calls of [closeSSE] leave exactly one
    termination envelope on the wire: the first call appends the tag
    chunk and the envelope chunk (unless the writer was closed
    already), the second one adds nothing, and neither call throws.
    [closeSSE] is not idempotent beyond that.  The second call has no
    guard: it calls [write], [write] and [close] on the closed writer
    once more, so the physical close is attempted again, and the three
    promises it gets back are rejected and left unhandled. *)
Theorem closeSSE_twice_one_termination_frame
        (req : NextRequest) (tag : jsstring) (rt : Runtime) (ops : list op) :
  let w := run ops (constructor req tag rt) in
  let once := exec closeSSE w in
  let twice := exec closeSSE once in
  termination_frames (Streams.wire (writer twice)) = 1
  /\ Streams.wire (writer twice) = Streams.wire (writer once)
  /\ Streams.wire (writer once) =
       (if Streams.closed (writer w) then Streams.wire (writer w)
        else Streams.wire (writer w) ++ [tag_chunk tag; termination_chunk])
  /\ fst (closeSSE w) = Normal tt
  /\ fst (closeSSE once) = Normal tt
  /\ issued_by closeSSE once =
       [Streams.Write (tag_chunk tag); Streams.Write termination_chunk; Streams.Close]
  /\ close_attempts twice = S (close_attempts once)
  /\ unhandled_rejections twice =
       unhandled_rejections once ++
       [Streams.Write (tag_chunk tag); Streams.Write termination_chunk; Streams.Close]
  /\ is_closed twice = true.
Proof.
  intros w once twice.
  pose proof (invariant_reachable req tag rt ops) as Hw. fold w in Hw.
  pose proof (invariant_closeSSE _ _ Hw) as Honce. fold once in Honce.
  pose proof (invariant_closeSSE _ _ Honce) as Htwice. fold twice in Htwice.
  assert (Hc1 : Streams.closed (writer once) = true) by reflexivity.
  assert (Hc2 : Streams.closed (writer twice) = true) by reflexivity.
  assert (Etag : eventTag (this once) = tag) by apply Honce.
  splits.
  - destruct Htwice as [_ _ Hf]. now rewrite Hc2 in Hf.
  - unfold twice. now rewrite closeSSE_wire, Hc1.
  - unfold once. rewrite closeSSE_wire. now destruct Hw as [-> _ _].
  - reflexivity.
  - reflexivity.
  - now rewrite closeSSE_issued, Etag.
  - unfold close_attempts, twice. rewrite closeSSE_writer. autorewrite with writer.
    rewrite !filter_app, !length_app. cbn [filter is_close List.length]. lia.
  - unfold unhandled_rejections, twice. rewrite closeSSE_writer.
    autorewrite with writer. rewrite Hc1, Etag. now rewrite <- !app_assoc.
  - apply closeSSE_closed.
Qed.

(** C2, as stated, fails: [closeSSE] is not idempotent and its second
    call does not go without error.  After [openSSE] and one
    [closeSSE] no promise has been rejected and the writer has been
    closed once; a second [closeSSE] leaves three unhandled rejections,
    among them that of a second [close], and a different instance. *)
Lemma second_closeSSE_is_rejected :
  let once := run [OpenSSE; CloseSSE] Examples.emitter in
  let twice := exec closeSSE once in
  unhandled_rejections once = []
  /\ unhandled_rejections twice =
       [Streams.Write (tag_chunk Examples.progress);
        Streams.Write termination_chunk; Streams.Close]
  /\ close_attempts once = 1
  /\ close_attempts twice = 2
  /\ twice <> once.
Proof.
  cbv zeta. splits; try reflexivity.
  intros E. apply (f_equal unhandled_rejections) in E. discriminate E.
Qed.

(** C3, as the code has it.  Once the writer has been closed, no
    sequence of [openSSE], [pushData], [closeSSE] and aborts opens it
    again or puts another chunk on the wire.  The [open] flag is not
    terminal: [openSSE] raises it again, so the instance is in the
    state [closeSSE] left it in exactly while the flag is down. *)
Theorem closed_writer_is_terminal (w : World) (ops : list op) :
  Streams.closed (writer w) = true ->
  Streams.closed (writer (run ops w)) = true
  /\ Streams.wire (writer (run ops w)) = Streams.wire (writer w)
  /\ is_closed (run ops w) = negb (open (this (run ops w)))
  /\ open (this (run (ops ++ [OpenSSE]) w)) = true.
Proof.
  intros H.
  assert (Hrun : Streams.closed (writer (run ops w)) = true
                 /\ Streams.wire (writer (run ops w)) = Streams.wire (writer w)).
  { revert w H. induction ops as [|o ops IH]; intros w H; [now split|].
    cbn [run fold_left]. destruct (closed_step w o H) as [Hc Hw].
    destruct (IH _ Hc) as [Hc' Hw']. unfold run in *. split; congruence. }
  destruct Hrun as [Hc Hw]. splits; try assumption.
  - unfold is_closed. rewrite Hc. apply andb_true_r.
  - unfold run. rewrite fold_left_app. reflexivity.
Qed.

Lemma closed_writer_is_terminal_witness :
  Streams.closed (writer (exec closeSSE Examples.emitter)) = true
  /\ Streams.wire (writer (run [PushData Examples.ten_percent; OpenSSE]
                              (exec closeSSE Examples.emitter)))
     = Streams.wire (writer (exec closeSSE Examples.emitter)).
Proof.
  split; [reflexivity|].
  apply (closed_writer_is_terminal (exec closeSSE Examples.emitter)
           [PushData Examples.ten_percent; OpenSSE]).
  reflexivity.
Defined.

(** C3, as stated, fails: after [openSSE] and [closeSSE] the instance
    is closed, and one more [openSSE] takes it out of that state. *)
Lemma closed_state_left_by_openSSE :
  is_closed (run [OpenSSE; CloseSSE] Examples.emitter) = true
  /\ is_closed (run [OpenSSE] (run [OpenSSE; CloseSSE] Examples.emitter)) = false
  /\ open (this (run [OpenSSE] (run [OpenSSE; CloseSSE] Examples.emitter))) = true.
Proof. splits; reflexivity. Qed.

(** C4. When the signal fires on an instance on which neither
    [closeSSE] nor an earlier abort has run, the handler goes through
    [closeSSE]: the instance ends as [closeSSE] would leave it, the
    writer receives one tag chunk, one termination envelope and the
    close, the wire carries exactly one termination envelope, and the
    instance is closed. *)
Theorem abort_closes_through_closeSSE
        (req : NextRequest) (tag : jsstring) (rt : Runtime) (ops : list op) :
  aborted (signal req) = false ->
  forallb keeps_open ops = true ->
  let w := run ops (constructor req tag rt) in
  this (abort w) = this (exec closeSSE w)
  /\ Streams.issued (writer (abort w)) =
       Streams.issued (writer w) ++
       [Streams.Write (tag_chunk tag); Streams.Write termination_chunk; Streams.Close]
  /\ Streams.wire (writer (abort w)) =
       Streams.wire (writer w) ++ [tag_chunk tag; termination_chunk]
  /\ termination_frames (Streams.wire (writer (abort w))) = 1
  /\ is_closed (abort w) = true.
Proof.
  intros Ha Hops w.
  pose proof (invariant_reachable req tag rt ops) as Hw. fold w in Hw.
  destruct (keeps_open_run ops (constructor req tag rt) Hops) as [Hc Hr].
  fold w in Hc, Hr. change (Streams.closed (writer w) = false) in Hc.
  assert (Hab : aborted (signal (request w)) = false) by (rewrite Hr; exact Ha).
  pose proof (abort_exec w Hab (inv_handler _ _ Hw)) as E.
  assert (Hthis : this (abort w) = this (exec closeSSE w)) by now rewrite E.
  assert (Hwr : writer (abort w) = writer (exec closeSSE w))
    by (unfold writer; now rewrite Hthis).
  pose proof (invariant_closeSSE _ _ Hw) as [_ _ Hf].
  assert (Etag : eventTag (this w) = tag) by apply Hw.
  splits.
  - exact Hthis.
  - rewrite Hwr, closeSSE_writer, Etag. autorewrite with writer.
    now rewrite <- !app_assoc.
  - now rewrite Hwr, closeSSE_wire, Hc, Etag.
  - now rewrite Hwr, Hf.
  - unfold is_closed. rewrite Hwr, Hthis. reflexivity.
Qed.

Lemma abort_closes_through_closeSSE_witness :
  let w := run [OpenSSE; PushData Examples.ten_percent] Examples.emitter in
  termination_frames (Streams.wire (writer (abort w))) = 1
  /\ is_closed (abort w) = true.
Proof.
  pose proof (abort_closes_through_closeSSE
                Examples.incoming Examples.progress module_loaded
                [OpenSSE; PushData Examples.ten_percent]
                eq_refl eq_refl) as H.
  cbv zeta in *. split; apply H.
Defined.


(** C5, as the code has it.  [pushData(v)] first serialises the
    envelope [{ payload: v, status: "running" }].  When
    [JSON.stringify] returns, it returns a string, and [pushData]
    makes exactly two calls on the writer, in this order: a [write] of
    the UTF-8 bytes of ["event: "] followed by those of the tag, and a
    [write] of the UTF-8 bytes of the serialised envelope; an open
    writer puts both on the wire.  When [JSON.stringify] throws,
    [pushData] throws the same error and writes nothing. *)
Theorem pushData_emits_tag_then_envelope (w : World) (data : value) :
  match JSON.stringify (data_envelope (heap_next w) data) with
  | Normal payload =>
      fst (pushData data w) = Normal tt
      /\ (exists text, payload = Some text
          /\ issued_by (pushData data) w =
             [Streams.Write (TextEncoder.encode (js "event: ")
                               ++ TextEncoder.encode (eventTag (this w)));
              Streams.Write (TextEncoder.encode text)])
      /\ Streams.wire (writer (exec (pushData data) w)) =
         (if Streams.closed (writer w) then Streams.wire (writer w)
          else Streams.wire (writer w) ++
               [tag_chunk (eventTag (this w)); TextEncoder.encode_arg payload])
  | Throw e =>
      fst (pushData data w) = Throw e
      /\ issued_by (pushData data) w = []
      /\ Streams.wire (writer (exec (pushData data) w)) = Streams.wire (writer w)
  end.
Proof.
  pose proof (pushData_issued w data) as Hi.
  pose proof (pushData_writer w data) as Hw.
  rewrite (stringify_envelope_loc 0%N (heap_next w)) in Hi.
  pose proof (stringify_data_envelope (heap_next w) data) as Hs.
  destruct (JSON.stringify (data_envelope (heap_next w) data)) as [payload|e] eqn:E.
  - splits.
    + now rewrite (pushData_ok _ _ _ E).
    + destruct (JSON.SerializeJSONProperty data) as [o|e']; [|discriminate Hs].
      exists (envelope_text o). split; [congruence|].
      rewrite Hi, tag_chunk_bytes. now replace payload with (Some (envelope_text o)) by congruence.
    + rewrite Hw. autorewrite with writer.
      destruct (Streams.closed (writer w)); [reflexivity|].
      now rewrite <- app_assoc.
  - splits.
    + now rewrite (pushData_throw _ _ _ E).
    + exact Hi.
    + now rewrite Hw.
Qed.

(** C5, as stated, fails on a value [JSON.stringify] rejects:
    [pushData(10n)] throws a [TypeError] and makes no call on the
    writer. *)
Lemma pushData_bigint_writes_nothing :
  fst (pushData (VBigInt 10) (exec openSSE Examples.emitter))
    = Throw (TypeError "Do not know how to serialize a BigInt")
  /\ issued_by (pushData (VBigInt 10)) (exec openSSE Examples.emitter) = []
  /\ Streams.wire (writer (exec (pushData (VBigInt 10)) (exec openSSE Examples.emitter))) = [].
Proof. splits; reflexivity. Qed.

(** C6. [openSSE] raises the flag and returns a response whose body is
    the readable side of the instance's own stream and whose headers
    are the six pairs of the source, and nothing else. *)
Theorem openSSE_response (w : World) :
  exists response,
    fst (openSSE w) = Normal response
    /\ body response = Readable (RESPONSE_STREAM (this w))
    /\ headers response =
       [ (js "Access-Control-Allow-Origin", js "*");
         (js "Content-Type", js "text/event-stream; charset=utf-8");
         (js "Connection", js "keep-alive");
         (js "Cache-Control", js "no-cache, no-transform");
         (js "X-Accel-Buffering", js "no");
         (js "Content-Encoding", js "none") ]
    /\ List.length (headers response) = 6
    /\ NoDup (map fst (headers response))
    /\ open (this (exec openSSE w)) = true.
Proof.
  eexists. split; [reflexivity|]. cbn [body headers]. splits; try reflexivity.
  cbn [map fst].
  repeat (constructor;
          [cbn [In]; intros H;
           repeat (destruct H as [H|H]; [discriminate H|]); exact H|]).
  constructor.
Qed.

(** C7. Whatever the instance and its tag, the second chunk [closeSSE]
    writes is one and the same constant: the UTF-8 bytes of
    [JSON.stringify(TERMINATION_PAYLOAD)], the text
    [{"payload":null,"status":"terminate"}]. *)
Theorem termination_envelope_is_constant (w : World) :
  issued_by closeSSE w =
    [Streams.Write (tag_chunk (eventTag (this w)));
     Streams.Write termination_chunk; Streams.Close]
  /\ JSON.stringify TERMINATION_PAYLOAD = Normal (Some termination_text)
  /\ termination_chunk = TextEncoder.encode termination_text.
Proof. split; [apply closeSSE_issued|]. split; reflexivity. Qed.

(** C10. The calls [pushData(v)] and [closeSSE] make on the writer
    depend on the tag and on [v] alone: two instances with the same
    tag receive the same calls, whatever their [open] flags are and
    whether or not their writers have been closed. *)
Theorem writes_ignore_open_flag (w1 w2 : World) (data : value) :
  eventTag (this w1) = eventTag (this w2) ->
  issued_by (pushData data) w1 = issued_by (pushData data) w2
  /\ issued_by closeSSE w1 = issued_by closeSSE w2.
Proof.
  intros H. now rewrite !pushData_issued, !closeSSE_issued, H.
Qed.

Lemma writes_ignore_open_flag_witness :
  let unopened := Examples.emitter in
  let closed := run [OpenSSE; CloseSSE] Examples.emitter in
  open (this unopened) = false /\ Streams.closed (writer unopened) = false
  /\ is_closed closed = true
  /\ issued_by (pushData Examples.ten_percent) unopened
     = issued_by (pushData Examples.ten_percent) closed
  /\ issued_by closeSSE unopened = issued_by closeSSE closed.
Proof.
  cbv zeta. split; [reflexivity|]. split; [reflexivity|]. split; [reflexivity|].
  exact (writes_ignore_open_flag Examples.emitter
           (run [OpenSSE; CloseSSE] Examples.emitter)
           Examples.ten_percent eq_refl).
Defined.

End ServerProofs.


(** * Further properties of [EssenceSSEServer] *)

Module ServerExtras.

Import Server Wire Reopen ServerProofs.

(** ** What never changes on an instance *)

Lemma step_identity (w : World) (o : op) :
  eventTag (this (step w o)) = eventTag (this w)
  /\ RESPONSE_STREAM (this (step w o)) = RESPONSE_STREAM (this w).
Proof.
  destruct o as [|data| |]; cbn [step].
  - now split.
  - unfold exec.
    destruct (JSON.stringify (data_envelope (heap_next w) data)) as [payload|e] eqn:E.
    + now rewrite (pushData_ok _ _ _ E).
    + now rewrite (pushData_throw _ _ _ E).
  - now split.
  - unfold abort. destruct (aborted (signal (request w))); [now split|].
    destruct (onabort (signal (request w))) as [[]|]; now split.
Qed.

Lemma run_identity (ops : list op) (w : World) :
  eventTag (this (run ops w)) = eventTag (this w)
  /\ RESPONSE_STREAM (this (run ops w)) = RESPONSE_STREAM (this w).
Proof.
  revert w. induction ops as [|o ops IH]; intros w; [now split|].
  cbn [run fold_left]. destruct (IH (step w o)) as [Ht Hs].
  destruct (step_identity w o) as [Ht' Hs']. unfold run in *. split; congruence.
Qed.

(** ** What [openSSE] touches *)

Lemma same_but_open_refl (w : World) : same_but_open w w.
Proof. unfold same_but_open. now splits. Qed.

Lemma openSSE_when_exec (readable : readable_state) (w : World) :
  exec (openSSE_when readable) w = exec openSSE w.
Proof. destruct readable; reflexivity. Qed.

Lemma same_but_open_openSSE (w1 w2 : World) :
  same_but_open w1 w2 -> same_but_open (exec openSSE w1) w2.
Proof. intros H. exact H. Qed.

Lemma same_but_open_closeSSE (w1 w2 : World) :
  same_but_open w1 w2 -> exec closeSSE w1 = exec closeSSE w2.
Proof.
  intros (Hs & Hw & Ht & Hr & Hc & Hn). rewrite !closeSSE_exec. unfold writer.
  now rewrite Hs, Hw, Ht, Hr, Hc, Hn.
Qed.

Lemma same_but_open_pushData (data : value) (w1 w2 : World) :
  same_but_open w1 w2 ->
  same_but_open (exec (pushData data) w1) (exec (pushData data) w2).
Proof.
  intros (Hs & Hw & Ht & Hr & Hc & Hn). unfold exec.
  destruct (JSON.stringify (data_envelope (heap_next w2) data)) as [payload|e] eqn:E.
  - assert (E1 : JSON.stringify (data_envelope (heap_next w1) data) = Normal payload)
      by (now rewrite Hn).
    rewrite (pushData_ok _ _ _ E1), (pushData_ok _ _ _ E).
    unfold same_but_open, writer. cbn [snd this request console heap_next
      RESPONSE_STREAM RESPONSE_STREAM_WRITER eventTag].
    now rewrite Hs, Hw, Ht, Hr, Hc, Hn.
  - assert (E1 : JSON.stringify (data_envelope (heap_next w1) data) = Throw e)
      by (now rewrite Hn).
    rewrite (pushData_throw _ _ _ E1), (pushData_throw _ _ _ E).
    unfold same_but_open. cbn [snd this request console heap_next].
    now rewrite Hs, Hw, Ht, Hr, Hc, Hn.
Qed.

Lemma same_but_open_abort (w1 w2 : World) :
  same_but_open w1 w2 -> same_but_open (abort w1) (abort w2).
Proof.
  intros (Hs & Hw & Ht & Hr & Hc & Hn). unfold abort. rewrite Hr.
  destruct (aborted (signal (request w2))); [now unfold same_but_open|].
  destruct (onabort (signal (request w2))) as [[]|].
  - unfold same_but_open. cbn. now rewrite Hs, Hw, Ht, Hc, Hn.
  - unfold same_but_open. cbn. now rewrite Hs, Hw, Ht, Hc, Hn.
Qed.

Lemma same_but_open_step (o : op) (w1 w2 : World) :
  same_but_open w1 w2 -> same_but_open (step w1 o) (step w2 o).
Proof.
  intros H. destruct o as [|data| |]; cbn [step].
  - exact H.
  - now apply same_but_open_pushData.
  - rewrite (same_but_open_closeSSE w1 w2 H). apply same_but_open_refl.
  - now apply same_but_open_abort.
Qed.

(** X5. [openSSE] touches nothing but the [open] flag, which it raises
    before it builds the response, so also when [new NextResponse]
    refuses a readable side that a reader has locked and the call
    throws.  No other operation reads the flag: taking every [openSSE]
    call out of a sequence of operations changes nothing in the state
    the sequence ends in (stream, writer with its wire and its calls,
    tag, request, console) except the flag. *)
Theorem openSSE_only_raises_the_flag
        (ops : list op) (w : World) (readable : readable_state) :
  same_but_open (run ops w) (run (without_openSSE ops) w)
  /\ same_but_open (exec (openSSE_when readable) w) w
  /\ open (this (exec (openSSE_when readable) w)) = true
  /\ fst (openSSE_when LockedOrDisturbed w)
     = Throw (TypeError "Response body object should not be disturbed or locked").
Proof.
  splits.
  - assert (H : forall ops w1 w2,
               same_but_open w1 w2 ->
               same_but_open (run ops w1) (run (without_openSSE ops) w2)).
    { clear. induction ops as [|o ops IH]; intros w1 w2 H; [exact H|].
      destruct o as [|data| |]; cbn [without_openSSE filter is_openSSE negb run fold_left];
        apply IH.
      - exact H.
      - now apply (same_but_open_step (PushData data)).
      - now apply (same_but_open_step CloseSSE).
      - now apply (same_but_open_step Abort). }
    apply H, same_but_open_refl.
  - rewrite openSSE_when_exec. apply (same_but_open_openSSE w w), same_but_open_refl.
  - now rewrite openSSE_when_exec.
  - reflexivity.
Qed.

(** ** The wire as a function of the calls *)

Lemma pushed_writer (w : World) (data : value) :
  Streams.closed (writer w) = false ->
  Streams.wire (writer (exec (pushData data) w))
  = Streams.wire (writer w) ++ pushed (eventTag (this w)) data.
Proof.
  intros Hc. rewrite pushData_writer. unfold pushed.
  rewrite (stringify_envelope_loc 0%N (heap_next w)).
  destruct (JSON.stringify (data_envelope (heap_next w) data)) as [payload|e].
  - autorewrite with writer. rewrite Hc. now rewrite <- app_assoc.
  - now rewrite app_nil_r.
Qed.

Lemma keeps_open_wire (ops : list op) (w : World) :
  Streams.closed (writer w) = false ->
  forallb keeps_open ops = true ->
  Streams.wire (writer (run ops w))
  = Streams.wire (writer w) ++ flat_map (pushed_by (eventTag (this w))) ops.
Proof.
  revert w. induction ops as [|o ops IH]; intros w Hc Hops.
  - cbn. now rewrite app_nil_r.
  - cbn [forallb] in Hops. apply andb_true_iff in Hops as [Ho Hops].
    cbn [run fold_left flat_map].
    destruct (keeps_open_step w o Ho) as [Hc' _].
    destruct (step_identity w o) as [Ht _].
    unfold run in IH. rewrite IH by congruence. rewrite Ht, app_assoc. f_equal.
    destruct o as [|data| |]; cbn [keeps_open] in Ho; try discriminate Ho;
      cbn [step pushed_by].
    + now rewrite app_nil_r.
    + now apply pushed_writer.
Qed.

(** X1. On a new instance the wire is the concatenation, in call
    order, of the frames of the [pushData] calls: [openSSE] writes
    nothing, wherever it is called (also not at all), a value
    [JSON.stringify] rejects contributes nothing, and a final
    [closeSSE] appends the termination frame. *)
Theorem wire_is_frames_in_call_order
        (req : NextRequest) (tag : jsstring) (rt : Runtime) (ops : list op) :
  forallb keeps_open ops = true ->
  Streams.wire (writer (run ops (constructor req tag rt)))
    = flat_map (pushed_by tag) ops
  /\ Streams.wire (writer (run (ops ++ [CloseSSE]) (constructor req tag rt)))
    = flat_map (pushed_by tag) ops ++ [tag_chunk tag; termination_chunk].
Proof.
  intros Hops.
  pose proof (keeps_open_wire ops (constructor req tag rt) eq_refl Hops) as Hw.
  cbn [app] in Hw. change (eventTag (this (constructor req tag rt))) with tag in Hw.
  split; [exact Hw|].
  unfold run. rewrite fold_left_app. cbn [fold_left step].
  fold (run ops (constructor req tag rt)).
  rewrite closeSSE_wire.
  destruct (keeps_open_run ops (constructor req tag rt) Hops) as [Hc _].
  rewrite Hc. cbn [Streams.closed writer this RESPONSE_STREAM_WRITER constructor Streams.getWriter].
  rewrite Hw. now destruct (run_identity ops (constructor req tag rt)) as [-> _].
Qed.

Lemma wire_is_frames_in_call_order_witness :
  Streams.wire (writer (run [PushData Examples.ten_percent; OpenSSE;
                             PushData (VBigInt 3); PushData VNull; CloseSSE]
                            Examples.emitter))
  = pushed Examples.progress Examples.ten_percent
    ++ pushed Examples.progress VNull
    ++ [tag_chunk Examples.progress; termination_chunk].
Proof.
  apply (wire_is_frames_in_call_order Examples.incoming Examples.progress module_loaded
           [PushData Examples.ten_percent; OpenSSE; PushData (VBigInt 3); PushData VNull]
           eq_refl).
Defined.


(** ** Chunks come in pairs *)

Lemma framed_app (tag : jsstring) (b : list (list byte)) :
  framed tag b -> forall a, framed tag a -> framed tag (a ++ b).
Proof.
  intros Hb. fix IH 1. intros [|x [|y rest]] Ha.
  - exact Hb.
  - destruct Ha.
  - destruct Ha as [Hx Hr]. split; [exact Hx|]. apply IH, Hr.
Qed.

Lemma framed_even (tag : jsstring) :
  forall chunks, framed tag chunks -> Nat.even (List.length chunks) = true.
Proof.
  fix IH 1. intros [|x [|y rest]] H.
  - reflexivity.
  - destruct H.
  - destruct H as [_ Hr]. cbn [List.length Nat.even]. apply IH, Hr.
Qed.

Lemma abort_writer (w : World) :
  writer (abort w) = writer w \/ writer (abort w) = writer (exec closeSSE w).
Proof.
  unfold abort. destruct (aborted (signal (request w))); [now left|].
  destruct (onabort (signal (request w))) as [[]|]; [now right|now left].
Qed.

Lemma framed_closeSSE (w : World) :
  framed (eventTag (this w)) (Streams.wire (writer w)) ->
  framed (eventTag (this w)) (Streams.wire (writer (exec closeSSE w))).
Proof.
  intros H. rewrite closeSSE_wire. destruct (Streams.closed (writer w)); [exact H|].
  apply framed_app; [|exact H]. now split.
Qed.

Lemma framed_step (w : World) (o : op) :
  framed (eventTag (this w)) (Streams.wire (writer w)) ->
  framed (eventTag (this w)) (Streams.wire (writer (step w o))).
Proof.
  intros H. destruct o as [|data| |]; cbn [step].
  - exact H.
  - rewrite pushData_writer.
    destruct (JSON.stringify (data_envelope (heap_next w) data)); [|exact H].
    autorewrite with writer. destruct (Streams.closed (writer w)); [exact H|].
    rewrite <- app_assoc. apply framed_app; [|exact H]. now split.
  - now apply framed_closeSSE.
  - destruct (abort_writer w) as [-> | ->]; [exact H|now apply framed_closeSSE].
Qed.

Lemma framed_run (ops : list op) (w : World) :
  framed (eventTag (this w)) (Streams.wire (writer w)) ->
  framed (eventTag (this w)) (Streams.wire (writer (run ops w))).
Proof.
  revert w. induction ops as [|o ops IH]; intros w H; [exact H|].
  cbn [run fold_left]. destruct (step_identity w o) as [Ht _].
  rewrite <- Ht. apply IH. rewrite Ht. now apply framed_step.
Qed.

(** X2. Whatever is called on an instance, and in whatever order, the
    wire consists of pairs of chunks, and the first chunk of every
    pair is the tag chunk of the instance: no body is ever written
    without its tag before it, and no tag without a body after it. *)
Theorem wire_is_framed
        (req : NextRequest) (tag : jsstring) (rt : Runtime) (ops : list op) :
  let wire := Streams.wire (writer (run ops (constructor req tag rt))) in
  framed tag wire /\ Nat.even (List.length wire) = true.
Proof.
  intros wire.
  assert (H : framed tag wire) by (apply (framed_run ops (constructor req tag rt)); exact I).
  split; [exact H|]. now apply (framed_even tag).
Qed.

(** ** A push on a closed instance *)

(** X4. [pushData] on an instance whose writer has been closed fails
    silently: for a value [JSON.stringify] accepts it returns
    normally, the wire stays as it is, the [open] flag is untouched,
    and both writes end as rejected promises nobody looks at. *)
Theorem push_after_close_is_lost (w : World) (data : value) (payload : option jsstring) :
  Streams.closed (writer w) = true ->
  JSON.stringify (data_envelope (heap_next w) data) = Normal payload ->
  let w' := exec (pushData data) w in
  fst (pushData data w) = Normal tt
  /\ Streams.wire (writer w') = Streams.wire (writer w)
  /\ Streams.rejected (writer w') =
       Streams.rejected (writer w) ++
       [Streams.Write (tag_chunk (eventTag (this w)));
        Streams.Write (TextEncoder.encode_arg payload)]
  /\ Streams.closed (writer w') = true
  /\ open (this w') = open (this w).
Proof.
  intros Hc E w'. unfold w'. splits.
  - now rewrite (pushData_ok _ _ _ E).
  - rewrite pushData_writer, E. autorewrite with writer. now rewrite Hc.
  - rewrite pushData_writer, E. autorewrite with writer. rewrite Hc.
    now rewrite <- app_assoc.
  - rewrite pushData_writer, E. now autorewrite with writer.
  - apply pushData_this.
Qed.

Lemma push_after_close_is_lost_witness :
  let w := run [OpenSSE; CloseSSE] Examples.emitter in
  Streams.closed (writer w) = true
  /\ fst (pushData Examples.ten_percent w) = Normal tt
  /\ Streams.wire (writer (exec (pushData Examples.ten_percent) w))
     = Streams.wire (writer w).
Proof.
  cbv zeta. split; [reflexivity|].
  pose proof (push_after_close_is_lost
                (run [OpenSSE; CloseSSE] Examples.emitter) Examples.ten_percent
                _ eq_refl eq_refl) as H.
  cbv zeta in H. split; apply H.
Defined.


(** ** No line break is ever written *)

Lemma printable_literal (s : jsstring) :
  forallb (fun c => (0x20 <=? c)%N) s = true -> printable s.
Proof.
  intros H. apply Forall_forall. intros c Hc.
  rewrite forallb_forall in H. now apply N.leb_le, H.
Qed.

Ltac literal := apply printable_literal; reflexivity.

Lemma printable_app (a b : jsstring) : printable a -> printable b -> printable (a ++ b).
Proof. intros Ha Hb. apply Forall_app. now split. Qed.

Lemma printable_digits (ds : list N) : printable (Digits.show ds).
Proof.
  unfold Digits.show. induction ds as [|d ds IH]; constructor; [lia|exact IH].
Qed.

Lemma printable_zeros (n : Z) : printable (zeros n).
Proof.
  unfold zeros. induction (Z.to_nat n) as [|k IH]; constructor; [lia|exact IH].
Qed.

Lemma printable_number (x : number) : printable (Number_toString x).
Proof.
  destruct x as [m e| |neg]; cbn [Number_toString].
  - destruct (m =? 0)%Z; [literal|].
    destruct (Digits.strip_trailing_zeros (Digits.of_N (Z.to_N (Z.abs m)))) as [s t].
    apply printable_app; [destruct (m <? 0)%Z; [literal|constructor]|].
    repeat match goal with
           | |- printable (if ?b then _ else _) => destruct b
           | |- printable (_ ++ _) => apply printable_app
           | |- printable (Digits.show _) => apply printable_digits
           | |- printable (zeros _) => apply printable_zeros
           | |- printable [] => constructor
           | |- printable (js _) => literal
           end.
  - literal.
  - destruct neg; literal.
Qed.

Lemma printable_hex4 (c : N) : printable (Digits.hex4 c).
Proof.
  unfold Digits.hex4, Digits.hex_digit.
  repeat (constructor; [match goal with |- context [if ?b then _ else _] => destruct b end; lia|]).
  constructor.
Qed.

Lemma printable_escape (c : code_unit) : printable (JSON.escape c).
Proof.
  unfold JSON.escape.
  repeat match goal with
         | |- printable (if (c <? 32)%N then _ else _) => fail 1
         | |- printable (if ?b then _ else _) => destruct b; [literal|]
         end.
  destruct (c <? 32)%N eqn:E.
  - apply printable_app; [literal|apply printable_hex4].
  - apply N.ltb_ge in E. constructor; [exact E|constructor].
Qed.

Lemma printable_unicode_escape (c : code_unit) : printable (JSON.unicode_escape c).
Proof. apply printable_app; [literal|apply printable_hex4]. Qed.

Lemma lead_is_printable (c : code_unit) :
  TextEncoder.is_lead_surrogate c = true -> (0x20 <= c)%N.
Proof.
  unfold TextEncoder.is_lead_surrogate. intros H.
  apply andb_true_iff in H as [H _]. apply N.leb_le in H. lia.
Qed.

Lemma trail_is_printable (c : code_unit) :
  TextEncoder.is_trail_surrogate c = true -> (0x20 <= c)%N.
Proof.
  unfold TextEncoder.is_trail_surrogate. intros H.
  apply andb_true_iff in H as [H _]. apply N.leb_le in H. lia.
Qed.

Lemma printable_quote_units_pair (s : jsstring) :
  printable (JSON.quote_units s) /\ forall c, printable (JSON.quote_units (c :: s)).
Proof.
  induction s as [|d s [IH1 IH2]].
  - split; [constructor|]. intros c. cbn [JSON.quote_units].
    destruct (TextEncoder.is_lead_surrogate c); [apply printable_unicode_escape|].
    destruct (TextEncoder.is_trail_surrogate c);
      (apply printable_app; [|constructor]);
      [apply printable_unicode_escape|apply printable_escape].
  - split; [apply IH2|]. intros c.
    change (JSON.quote_units (c :: d :: s)) with
      (if TextEncoder.is_lead_surrogate c then
         if TextEncoder.is_trail_surrogate d
         then c :: d :: JSON.quote_units s
         else JSON.unicode_escape c ++ JSON.quote_units (d :: s)
       else if TextEncoder.is_trail_surrogate c
            then JSON.unicode_escape c ++ JSON.quote_units (d :: s)
            else JSON.escape c ++ JSON.quote_units (d :: s)).
    destruct (TextEncoder.is_lead_surrogate c) eqn:Hc.
    + destruct (TextEncoder.is_trail_surrogate d) eqn:Hd.
      * constructor; [now apply lead_is_printable|].
        constructor; [now apply trail_is_printable|exact IH1].
      * apply printable_app; [apply printable_unicode_escape|apply IH2].
    + destruct (TextEncoder.is_trail_surrogate c);
        (apply printable_app; [|apply IH2]);
        [apply printable_unicode_escape|apply printable_escape].
Qed.

Lemma printable_quote (s : jsstring) : printable (JSON.QuoteJSONString s).
Proof.
  unfold JSON.QuoteJSONString.
  apply printable_app; [literal|].
  apply printable_app; [apply printable_quote_units_pair|literal].
Qed.

Lemma printable_join (sep : jsstring) (parts : list jsstring) :
  printable sep -> Forall printable parts -> printable (join sep parts).
Proof.
  intros Hs. induction parts as [|p [|q parts] IH]; intros H.
  - constructor.
  - now inversion H.
  - inversion H as [|? ? Hp Hrest]; subst.
    change (join sep (p :: q :: parts)) with (p ++ sep ++ join sep (q :: parts)).
    apply printable_app; [exact Hp|]. apply printable_app; [exact Hs|]. now apply IH.
Qed.

(** [JSON.stringify] escapes every control character. *)
Lemma printable_serialize :
  forall (v : value) (s : jsstring),
    JSON.SerializeJSONProperty v = Normal (Some s) -> printable s.
Proof.
  fix IH 1. intros v s H.
  destruct v as [| |b|x|str|z|l elems|l props]; cbn [JSON.SerializeJSONProperty] in H.
  - discriminate H.
  - inversion H; subst. literal.
  - inversion H; subst. destruct b; literal.
  - destruct x as [m e| |neg].
    + assert (Hs : s = Number_toString (Finite m e)) by congruence.
      subst s. apply printable_number.
    + assert (Hs : s = js "null") by congruence. subst s. literal.
    + assert (Hs : s = js "null") by congruence. subst s. literal.
  - inversion H; subst. apply printable_quote.
  - discriminate H.
  - match type of H with
    | match ?f elems with _ => _ end = _ =>
        assert (Hparts : forall xs parts, f xs = Normal parts -> Forall printable parts)
    end.
    { fix IHl 1. intros [|x xs] parts Hp.
      - inversion Hp; subst. constructor.
      - destruct (JSON.SerializeJSONProperty x) as [o|e] eqn:Ex; [|discriminate Hp].
        match type of Hp with
        | match ?g with _ => _ end = _ => destruct g as [r|e] eqn:Er; [|discriminate Hp]
        end.
        assert (Hs : parts = match o with Some t => t | None => js "null" end :: r)
          by congruence.
        subst parts. constructor; [|now apply (IHl xs)].
        destruct o as [t|]; [now apply (IH x)|literal]. }
    match type of H with
    | match ?g with _ => _ end = _ => destruct g as [parts|e] eqn:Ep; [|discriminate H]
    end.
    assert (Hs : s = js "[" ++ join (js ",") parts ++ js "]") by congruence.
    subst s.
    apply printable_app; [literal|]. apply printable_app; [|literal].
    apply printable_join; [literal|]. now apply (Hparts elems).
  - match type of H with
    | match ?f props with _ => _ end = _ =>
        assert (Hparts : forall ps parts, f ps = Normal parts -> Forall printable parts)
    end.
    { fix IHl 1. intros [|[k x] ps] parts Hp.
      - inversion Hp; subst. constructor.
      - destruct (JSON.SerializeJSONProperty x) as [o|e] eqn:Ex; [|discriminate Hp].
        match type of Hp with
        | match ?g with _ => _ end = _ => destruct g as [r|e] eqn:Er; [|discriminate Hp]
        end.
        destruct o as [t|].
        * assert (Hs : parts = (JSON.QuoteJSONString k ++ js ":" ++ t) :: r)
            by congruence.
          subst parts. constructor; [|now apply (IHl ps)].
          apply printable_app; [apply printable_quote|].
          apply printable_app; [literal|now apply (IH x)].
        * assert (Hs : parts = r) by congruence. subst parts. now apply (IHl ps). }
    match type of H with
    | match ?g with _ => _ end = _ => destruct g as [parts|e] eqn:Ep; [|discriminate H]
    end.
    assert (Hs : s = js "{" ++ join (js ",") parts ++ js "}") by congruence.
    subst s.
    apply printable_app; [literal|]. apply printable_app; [|literal].
    apply printable_join; [literal|]. now apply (Hparts props).
Qed.


Lemma printable_unbroken (s : jsstring) : printable s -> unbroken s.
Proof.
  apply Forall_impl. intros c H. unfold breaks_line.
  apply orb_false_iff. split; apply N.eqb_neq; lia.
Qed.

Lemma line_free_literal (chunk : list byte) :
  forallb (fun b => negb (line_byte b)) chunk = true -> line_free chunk.
Proof.
  intros H. apply Forall_forall. intros b Hb.
  rewrite forallb_forall in H. now apply negb_true_iff, H.
Qed.

(** A byte that ends a line comes from the number 10 or 13. *)
Lemma octet_line_byte (n : N) :
  line_byte (TextEncoder.octet n) = true -> n = 10%N \/ n = 13%N.
Proof.
  unfold TextEncoder.octet, line_byte.
  destruct (Byte.of_N n) as [b|] eqn:E; [|discriminate].
  apply Byte.to_of_N in E. intros H. apply orb_true_iff in H as [H|H];
    apply Byte.byte_dec_bl in H; subst b; [left|right]; now rewrite <- E.
Qed.

(** Lead and continuation bytes have their top bit set. *)
Lemma high_octet (k y : N) :
  N.testbit k 7 = true -> line_byte (TextEncoder.octet (N.lor k y)) = false.
Proof.
  intros Hk. destruct (line_byte (TextEncoder.octet (N.lor k y))) eqn:E; [|reflexivity].
  apply octet_line_byte in E.
  assert (Hb : N.testbit (N.lor k y) 7 = true) by (rewrite N.lor_spec, Hk; reflexivity).
  destruct E as [E|E]; rewrite E in Hb; discriminate Hb.
Qed.

Lemma line_free_code_point (cp : N) :
  breaks_line cp = false -> line_free (TextEncoder.utf8_of_code_point cp).
Proof.
  intros H. unfold TextEncoder.utf8_of_code_point, TextEncoder.continuation.
  destruct (cp <? 128)%N.
  - constructor; [|constructor].
    destruct (line_byte (TextEncoder.octet cp)) eqn:E; [|reflexivity].
    apply octet_line_byte in E. unfold breaks_line in H.
    apply orb_false_iff in H as [H1 H2]. apply N.eqb_neq in H1, H2. now destruct E.
  - destruct (cp <? 2048)%N; [|destruct (cp <? 65536)%N];
      repeat (constructor; [now apply high_octet|]); constructor.
Qed.

Lemma pair_never_breaks (c d : code_unit) :
  breaks_line (TextEncoder.pair_code_point c d) = false.
Proof.
  unfold breaks_line, TextEncoder.pair_code_point.
  apply orb_false_iff. split; apply N.eqb_neq; lia.
Qed.

Lemma line_free_app (a b : list byte) : line_free a -> line_free b -> line_free (a ++ b).
Proof. intros Ha Hb. apply Forall_app. now split. Qed.

Lemma line_free_replacement : line_free TextEncoder.replacement.
Proof. apply line_free_literal. reflexivity. Qed.

Lemma line_free_encode_pair (s : jsstring) :
  unbroken s ->
  line_free (TextEncoder.encode s)
  /\ forall c, breaks_line c = false -> line_free (TextEncoder.encode (c :: s)).
Proof.
  induction s as [|d s IH]; intros Hs.
  - split; [constructor|]. intros c Hc. rewrite PlatformFacts.encode_one.
    destruct (_ || _); [apply line_free_replacement|now apply line_free_code_point].
  - apply Forall_cons_iff in Hs as [Hd Hs]. destruct (IH Hs) as [IH1 IH2].
    split; [now apply IH2|]. intros c Hc. rewrite PlatformFacts.encode_two.
    destruct (TextEncoder.is_lead_surrogate c).
    + destruct (TextEncoder.is_trail_surrogate d).
      * apply line_free_app; [apply line_free_code_point, pair_never_breaks|exact IH1].
      * apply line_free_app; [apply line_free_replacement|now apply IH2].
    + destruct (TextEncoder.is_trail_surrogate c);
        (apply line_free_app; [|now apply IH2]);
        [apply line_free_replacement|now apply line_free_code_point].
Qed.

(** UTF-8 introduces no line break of its own. *)
Lemma line_free_encode (s : jsstring) : unbroken s -> line_free (TextEncoder.encode s).
Proof. intros H. now apply line_free_encode_pair. Qed.

Lemma line_free_tag_chunk (tag : jsstring) : unbroken tag -> line_free (tag_chunk tag).
Proof.
  intros H. unfold tag_chunk. apply line_free_encode, Forall_app. split; [|exact H].
  apply printable_unbroken. literal.
Qed.

Lemma line_free_termination_chunk : line_free termination_chunk.
Proof. apply line_free_literal. reflexivity. Qed.

Lemma line_free_body (l : loc) (data : value) (payload : option jsstring) :
  JSON.stringify (data_envelope l data) = Normal payload ->
  line_free (TextEncoder.encode_arg payload).
Proof.
  rewrite stringify_data_envelope.
  destruct (JSON.SerializeJSONProperty data) as [o|e] eqn:E; [|discriminate].
  intros H. assert (Hp : payload = Some (envelope_text o)) by congruence. subst payload.
  change (TextEncoder.encode_arg (Some (envelope_text o)))
    with (TextEncoder.encode (envelope_text o)).
  apply line_free_encode, printable_unbroken.
  destruct o as [text|]; [|literal].
  change (envelope_text (Some text)) with ((envelope_prefix ++ text) ++ envelope_suffix).
  apply printable_app; [apply printable_app|]; try literal.
  exact (printable_serialize data text E).
Qed.

Lemma line_free_closeSSE (w : World) :
  unbroken (eventTag (this w)) ->
  Forall line_free (Streams.wire (writer w)) ->
  Forall line_free (Streams.wire (writer (exec closeSSE w))).
Proof.
  intros Ht H. rewrite closeSSE_wire. destruct (Streams.closed (writer w)); [exact H|].
  apply Forall_app. split; [exact H|].
  constructor; [now apply line_free_tag_chunk|].
  constructor; [apply line_free_termination_chunk|constructor].
Qed.

Lemma line_free_step (w : World) (o : op) :
  unbroken (eventTag (this w)) ->
  Forall line_free (Streams.wire (writer w)) ->
  Forall line_free (Streams.wire (writer (step w o))).
Proof.
  intros Ht H. destruct o as [|data| |]; cbn [step].
  - exact H.
  - rewrite pushData_writer.
    destruct (JSON.stringify (data_envelope (heap_next w) data)) as [payload|e] eqn:E;
      [|exact H].
    autorewrite with writer. destruct (Streams.closed (writer w)); [exact H|].
    rewrite <- app_assoc. apply Forall_app. split; [exact H|].
    constructor; [now apply line_free_tag_chunk|].
    constructor; [now apply (line_free_body _ _ _ E)|constructor].
  - now apply line_free_closeSSE.
  - destruct (abort_writer w) as [-> | ->]; [exact H|now apply line_free_closeSSE].
Qed.

(** X3. If the tag holds no line feed and no carriage return, no chunk
    that reaches the wire holds one, whatever values are pushed and
    whatever else is called: [JSON.stringify] escapes the control
    characters of every payload, and neither [pushData] nor [closeSSE]
    writes a line terminator after the tag or after the envelope. *)
Theorem wire_has_no_line_break
        (req : NextRequest) (tag : jsstring) (rt : Runtime) (ops : list op) :
  unbroken tag ->
  Forall line_free (Streams.wire (writer (run ops (constructor req tag rt)))).
Proof.
  intros Ht.
  assert (H : forall ops w,
             unbroken (eventTag (this w)) ->
             Forall line_free (Streams.wire (writer w)) ->
             Forall line_free (Streams.wire (writer (run ops w)))).
  { clear. induction ops as [|o ops IH]; intros w Ht H; [exact H|].
    cbn [run fold_left]. apply IH.
    - now destruct (step_identity w o) as [-> _].
    - now apply line_free_step. }
  apply H; [exact Ht|constructor].
Qed.

Lemma wire_has_no_line_break_witness :
  unbroken Examples.progress
  /\ Forall line_free
       (Streams.wire (writer (run [OpenSSE;
                                   PushData (VString (js "two" ++ [0x0A%N] ++ js "lines"));
                                   CloseSSE]
                                  Examples.emitter))).
Proof.
  assert (H : unbroken Examples.progress).
  { repeat constructor. }
  split; [exact H|].
  exact (wire_has_no_line_break Examples.incoming Examples.progress module_loaded
           [OpenSSE; PushData (VString (js "two" ++ [0x0A%N] ++ js "lines")); CloseSSE] H).
Defined.

End ServerExtras.


(** * Properties of [EssenceSSEClient] *)

Module ClientProofs.

Import Client.

(** ** What the listener does with one message *)

(** In a realm where the module constant exists, the comparison with
    [TERMINATION_PAYLOAD] is false for whatever [JSON.parse] returns,
    so the branch that closes the source is never taken. *)
Lemma on_tagged_event_exec (event : MessageEvent) (w : World) :
  module_evaluated w ->
  on_tagged_event event w =
  match JSON.parse (data event) (heap_next w) with
  | Throw e => (Throw e, logged [data event] (heap_next w) w)
  | Normal (v, next) =>
      match ToString v with
      | Throw e => (Throw e, logged [data event] next w)
      | Normal text =>
          (Normal tt,
           called [data event; js "Parsed payload: " ++ text] next v w)
      end
  end.
Proof.
  intros Hm. unfold on_tagged_event, bind, console_log, modify, JSON_parse, lift.
  cbn [heap_next].
  destruct (JSON.parse (data event) (heap_next w)) as [[v next]|e] eqn:E;
    [|reflexivity].
  destruct (ToString v) as [text|e]; [|reflexivity].
  apply JSONFacts.parse_fresh in E as [_ Hid].
  rewrite (JSONFacts.not_the_termination_payload v (heap_next w) Hm Hid).
  unfold call_dataUpdated, modify, called. cbn. now rewrite <- app_assoc.
Qed.


(** ** What the platform's dispatch does on a live subscription *)

Lemma dispatch_own_tag (tag : jsstring) (w : World) (event : MessageEvent) :
  subscribed tag w -> type event = tag ->
  dispatch w event =
  match JSON.parse (data event) (heap_next w) with
  | Throw e => report e (logged [data event] (heap_next w) w)
  | Normal (v, next) =>
      match ToString v with
      | Throw e => report e (logged [data event] next w)
      | Normal text => called [data event; js "Parsed payload: " ++ text] next v w
      end
  end.
Proof.
  intros [Hl Ho Hm] Ht. unfold dispatch. unfold source_closed in Ho.
  rewrite Hl. cbn [fold_left]. unfold invoke. cbn [fst snd run_listener].
  rewrite Ht, PlatformFacts.jsstring_eqb_refl, (on_tagged_event_exec _ _ Hm).
  destruct (ready (source w)); try discriminate Ho;
    destruct (JSON.parse (data event) (heap_next w)) as [[v next]|e];
    try reflexivity; destruct (ToString v); reflexivity.
Qed.

Lemma dispatch_other_tag (tag : jsstring) (w : World) (event : MessageEvent) :
  listeners (source w) = [(tag, OnTaggedEvent)] -> type event <> tag ->
  dispatch w event = w.
Proof.
  intros Hl Ht. unfold dispatch. rewrite Hl. cbn [fold_left]. unfold invoke.
  cbn [fst]. rewrite PlatformFacts.jsstring_eqb_neq by congruence.
  now destruct (ready (source w)).
Qed.

(** No message closes the source or touches its listeners. *)
Lemma dispatch_keeps_subscription (tag : jsstring) (w : World) (event : MessageEvent) :
  subscribed tag w ->
  source (dispatch w event) = source w /\ subscribed tag (dispatch w event).
Proof.
  intros Hs.
  destruct (list_eq_dec N.eq_dec (type event) tag) as [Ht|Ht].
  - rewrite (dispatch_own_tag _ _ _ Hs Ht). destruct Hs as [Hl Ho Hm].
    destruct (JSON.parse (data event) (heap_next w)) as [[v next]|e] eqn:E.
    + apply JSONFacts.parse_fresh in E as [Hn _].
      assert (Hm' : (0 < next)%N) by (unfold module_evaluated in Hm; lia).
      destruct (ToString v); (split; [reflexivity|split; assumption]).
    + split; [reflexivity|split; assumption].
  - rewrite (dispatch_other_tag tag) by (assumption || apply Hs). now split.
Qed.

Lemma deliver_keeps_subscription (tag : jsstring) (events : list MessageEvent) (w : World) :
  subscribed tag w ->
  source (deliver events w) = source w /\ subscribed tag (deliver events w).
Proof.
  revert w. induction events as [|ev events IH]; intros w Hs; [now split|].
  cbn [deliver fold_left].
  destruct (dispatch_keeps_subscription _ _ ev Hs) as [E Hs'].
  destruct (IH _ Hs') as [E' Hs'']. unfold deliver in *. split; congruence.
Qed.

Lemma deliver_app (a b : list MessageEvent) (w : World) :
  deliver (a ++ b) w = deliver b (deliver a w).
Proof. apply fold_left_app. Qed.

Lemma constructor_subscribed (u tag : jsstring) (rt : Runtime) :
  (0 < rt_heap_next rt)%N -> subscribed tag (constructor u tag rt).
Proof. intros H. split; [reflexivity|reflexivity|exact H]. Qed.

Lemma announce_subscribed (tag : jsstring) (w : World) :
  subscribed tag w -> subscribed tag (announce w).
Proof.
  intros [Hl Ho Hm]. unfold announce.
  destruct (ready (source w)) eqn:E; split; assumption || reflexivity.
Qed.

(** The listeners of the source are those the constructor registered,
    whatever is delivered. *)
Lemma invoke_listeners (event : MessageEvent) (w : World) (entry : jsstring * listener) :
  listeners (source (invoke event w entry)) = listeners (source w).
Proof.
  unfold invoke. destruct (jsstring_eqb (fst entry) (type event)); [|reflexivity].
  destruct (snd entry). cbn [run_listener].
  unfold on_tagged_event, bind, console_log, modify, JSON_parse, lift.
  cbn [heap_next].
  destruct (JSON.parse (data event) (heap_next w)) as [[v next]|e]; [|reflexivity].
  destruct (ToString v); [|reflexivity].
  destruct (IsStrictlyEqual v TERMINATION_PAYLOAD); reflexivity.
Qed.

Lemma dispatch_listeners (w : World) (event : MessageEvent) :
  listeners (source (dispatch w event)) = listeners (source w).
Proof.
  unfold dispatch.
  assert (H : forall entries w0,
             listeners (source (fold_left (invoke event) entries w0))
             = listeners (source w0)).
  { induction entries as [|en entries IH]; intros w0; [reflexivity|].
    cbn [fold_left]. now rewrite IH, invoke_listeners. }
  destruct (ready (source w)); auto.
Qed.

Lemma deliver_listeners (events : list MessageEvent) (w : World) :
  listeners (source (deliver events w)) = listeners (source w).
Proof.
  revert w. induction events as [|ev events IH]; intros w; [reflexivity|].
  cbn [deliver fold_left]. unfold deliver in IH. now rewrite IH, dispatch_listeners.
Qed.

(** ** Diagnostics do not steer the listener *)

Lemma same_state_refl (w : World) : same_state w w.
Proof. now repeat split. Qed.

Lemma invoke_same_state (event : MessageEvent) (entry : jsstring * listener)
      (w1 w2 : World) :
  same_state w1 w2 -> same_state (invoke event w1 entry) (invoke event w2 entry).
Proof.
  intros (Ht & Hs & Hn & Hd). unfold invoke.
  destruct (jsstring_eqb (fst entry) (type event)); [|now repeat split].
  destruct (snd entry). cbn [run_listener].
  unfold on_tagged_event, bind, console_log, modify, JSON_parse, lift.
  cbn [heap_next]. rewrite Hn.
  destruct (JSON.parse (data event) (heap_next w2)) as [[v next]|e];
    [|now repeat split].
  destruct (ToString v); [|now repeat split].
  destruct (IsStrictlyEqual v TERMINATION_PAYLOAD);
    unfold same_state; cbn; rewrite ?Hs, ?Hd; now repeat split.
Qed.

Lemma dispatch_same_state (event : MessageEvent) (w1 w2 : World) :
  same_state w1 w2 -> same_state (dispatch w1 event) (dispatch w2 event).
Proof.
  intros H. unfold dispatch.
  assert (Hs : source w1 = source w2) by apply H. rewrite Hs.
  assert (F : forall entries a b,
             same_state a b ->
             same_state (fold_left (invoke event) entries a)
                        (fold_left (invoke event) entries b)).
  { induction entries as [|en entries IH]; intros a b Hab; [exact Hab|].
    cbn [fold_left]. apply IH, invoke_same_state, Hab. }
  destruct (ready (source w2)); auto.
Qed.

Lemma deliver_same_state (events : list MessageEvent) (w1 w2 : World) :
  same_state w1 w2 -> same_state (deliver events w1) (deliver events w2).
Proof.
  revert w1 w2. induction events as [|ev events IH]; intros w1 w2 H; [exact H|].
  cbn [deliver fold_left]. apply IH, dispatch_same_state, H.
Qed.


(** ** The claims about the client *)

Lemma parse_termination_text (next : loc) :
  JSON.parse Server.termination_text next
  = Normal (parsed_termination next, (next + 1)%N).
Proof. reflexivity. Qed.

(** The termination frame takes the same path as a data frame: the
    parsed envelope is a new object, [===] against the module constant
    is false, the callback receives the envelope and the source stays
    as it was. *)
Lemma termination_frame_is_delivered (tag : jsstring) (w : World) :
  subscribed tag w ->
  let w' := dispatch w {| type := tag; data := Server.termination_text |} in
  dataUpdated w' = dataUpdated w ++ [parsed_termination (heap_next w)]
  /\ source w' = source w
  /\ IsStrictlyEqual (parsed_termination (heap_next w)) TERMINATION_PAYLOAD = false.
Proof.
  intros Hs w'. unfold w'. rewrite (dispatch_own_tag tag) by (assumption || reflexivity).
  cbn [data]. rewrite parse_termination_text. cbn [ToString has_own existsb].
  repeat split. destruct Hs as [_ _ Hm]. unfold module_evaluated in Hm.
  cbn. apply N.eqb_neq. lia.
Qed.

Lemma termination_text_accepted : accepted Server.termination_text.
Proof.
  intros next. exists (parsed_termination next), (next + 1)%N, (js "[object Object]").
  split; [apply parse_termination_text|reflexivity].
Qed.

(** Every accepted message on the client's tag is one more call of
    [dataUpdated], the termination frame included. *)
Lemma accepted_frames_are_calls (tag : jsstring) (frames : list MessageEvent) (w : World) :
  subscribed tag w ->
  Forall (fun ev => type ev = tag /\ accepted (data ev)) frames ->
  List.length (dataUpdated (deliver frames w))
  = List.length (dataUpdated w) + List.length frames.
Proof.
  revert w. induction frames as [|ev frames IH]; intros w Hs Hall.
  - cbn. lia.
  - apply Forall_cons_iff in Hall as [[Ht Hacc] Hrest].
    cbn [deliver fold_left List.length].
    destruct (dispatch_keeps_subscription tag w ev Hs) as [_ Hs'].
    unfold deliver in IH. rewrite (IH _ Hs' Hrest).
    rewrite (dispatch_own_tag tag w ev Hs Ht).
    destruct (Hacc (heap_next w)) as (v & n & text & -> & ->).
    cbn [called dataUpdated]. rewrite length_app. cbn [List.length]. lia.
Qed.

(** So [n] data frames and the termination frame make [n + 1] calls,
    and the source is as open as before. *)
Lemma n_frames_and_termination (tag : jsstring) (frames : list MessageEvent) (w : World) :
  subscribed tag w ->
  Forall (fun ev => type ev = tag /\ accepted (data ev)) frames ->
  let stream := frames ++ [{| type := tag; data := Server.termination_text |}] in
  List.length (dataUpdated (deliver stream w))
  = List.length (dataUpdated w) + List.length frames + 1
  /\ source (deliver stream w) = source w.
Proof.
  intros Hs Hall stream.
  assert (Hstream : Forall (fun ev => type ev = tag /\ accepted (data ev)) stream).
  { apply Forall_app. split; [assumption|].
    constructor; [|constructor]. split; [reflexivity|].
    apply termination_text_accepted. }
  split.
  - rewrite (accepted_frames_are_calls tag stream w Hs Hstream).
    unfold stream. rewrite length_app. cbn [List.length]. lia.
  - now apply (deliver_keeps_subscription tag).
Qed.

(** C1, the code at a stream of one data frame and the termination
    frame, both on the client's tag: [dataUpdated] is called twice, the
    second time with the termination envelope, and the source is still
    open afterwards. *)
Theorem termination_envelope_reaches_callback :
  let stream := [Examples.frame Examples.progress (Examples.data_body 10);
                 Examples.frame Examples.progress Server.termination_text] in
  let w := deliver stream Examples.receiver in
  List.length (dataUpdated w) = 2
  /\ nth_error (dataUpdated w) 1 = Some (parsed_termination 3%N)
  /\ ready (source w) = OPEN
  /\ source_closed w = false.
Proof. vm_compute. repeat split. Qed.

(** C8. A message on the client's tag whose body is not JSON makes
    [JSON.parse] throw inside the listener.  The platform reports the
    error; [dataUpdated] is not called for this message; the source and
    its listener stay as they were; and every later message is handled
    as if the malformed one had never arrived. *)
Theorem malformed_message_is_skipped
        (tag : jsstring) (w : World) (pre post : list MessageEvent) (bad : MessageEvent) :
  subscribed tag w ->
  type bad = tag ->
  JSON.valid (data bad) = false ->
  let before := deliver pre w in
  let after := dispatch before bad in
  dataUpdated after = dataUpdated before
  /\ source after = source before
  /\ subscribed tag after
  /\ (exists e, JSON.parse (data bad) (heap_next before) = Throw e
                /\ reported after = reported before ++ [e])
  /\ console after = console before ++ [data bad]
  /\ deliver (pre ++ bad :: post) w = deliver post after
  /\ dataUpdated (deliver post after) = dataUpdated (deliver post before)
  /\ source (deliver post after) = source w.
Proof.
  intros Hs Ht Hbad before after.
  destruct (deliver_keeps_subscription tag pre w Hs) as [Esrc Hb]. fold before in Esrc, Hb.
  destruct (JSONFacts.parse_invalid (data bad) (heap_next before) Hbad) as [e He].
  pose proof (dispatch_own_tag tag before bad Hb Ht) as E. fold after in E.
  rewrite He in E.
  destruct (dispatch_keeps_subscription tag before bad Hb) as [Esrc' Ha].
  fold after in Esrc', Ha.
  assert (Hsame : same_state after before) by (rewrite E; now repeat split).
  split; [now rewrite E|]. split; [exact Esrc'|]. split; [exact Ha|].
  split; [exists e; split; [exact He|now rewrite E]|].
  split; [now rewrite E|].
  split; [now rewrite deliver_app|].
  split; [apply (deliver_same_state post _ _ Hsame)|].
  destruct (deliver_keeps_subscription tag post after Ha) as [Esrc'' _].
  congruence.
Qed.

Lemma malformed_message_is_skipped_witness :
  let good10 := Examples.frame Examples.progress (Examples.data_body 10) in
  let bad := Examples.frame Examples.progress (js "{oops") in
  let good50 := Examples.frame Examples.progress (Examples.data_body 50) in
  JSON.valid (data bad) = false
  /\ List.length (dataUpdated (deliver [good10; bad; good50] Examples.receiver)) = 2
  /\ dataUpdated (deliver [good50] (dispatch (deliver [good10] Examples.receiver) bad))
     = dataUpdated (deliver [good50] (deliver [good10] Examples.receiver)).
Proof.
  cbv zeta. split; [reflexivity|]. split; [reflexivity|].
  assert (Hs : subscribed Examples.progress Examples.receiver).
  { apply announce_subscribed, constructor_subscribed. reflexivity. }
  apply (malformed_message_is_skipped Examples.progress Examples.receiver
           [Examples.frame Examples.progress (Examples.data_body 10)]
           [Examples.frame Examples.progress (Examples.data_body 50)]
           (Examples.frame Examples.progress (js "{oops"))
           Hs eq_refl eq_refl).
Defined.

(** C9. The constructor registers one listener, for its own tag, and
    that stays so whatever is delivered.  A message of any other type
    does not reach the listener: the world, and with it the record of
    [dataUpdated] calls, is unchanged. *)
Theorem other_tags_never_reach_callback
        (u A : jsstring) (rt : Runtime) (earlier : list MessageEvent)
        (event : MessageEvent) :
  type event <> A ->
  let w := deliver earlier (constructor u A rt) in
  listeners (source w) = [(A, OnTaggedEvent)]
  /\ dispatch w event = w
  /\ dataUpdated (dispatch w event) = dataUpdated w.
Proof.
  intros Ht w.
  assert (Hl : listeners (source w) = [(A, OnTaggedEvent)])
    by (unfold w; now rewrite deliver_listeners).
  split; [exact Hl|].
  now rewrite (dispatch_other_tag A w event Hl Ht).
Qed.

Lemma other_tags_never_reach_callback_witness :
  let w := deliver [Examples.frame Examples.progress (Examples.data_body 10)]
                   (constructor (js "/api/progress") (js "A") module_loaded) in
  js "B" <> js "A"
  /\ dispatch w (Examples.frame (js "B") (Examples.data_body 10)) = w.
Proof.
  cbv zeta. split; [discriminate|].
  apply (other_tags_never_reach_callback
           (js "/api/progress") (js "A") module_loaded
           [Examples.frame Examples.progress (Examples.data_body 10)]
           (Examples.frame (js "B") (Examples.data_body 10))).
  discriminate.
Defined.

End ClientProofs.


(** * Further properties of [EssenceSSEClient] *)

Module ClientExtras.

Import Client ClientProofs Inbox.

(** ** Calls of the callback *)

Lemma dispatch_calls (tag : jsstring) (w : World) (ev : MessageEvent) :
  subscribed tag w ->
  exists more,
    dataUpdated (dispatch w ev) = dataUpdated w ++ more
    /\ List.length more <= (if own tag ev then 1 else 0).
Proof.
  intros Hs. unfold own.
  destruct (list_eq_dec N.eq_dec (type ev) tag) as [Ht|Ht].
  - rewrite (proj2 (PlatformFacts.jsstring_eqb_eq _ _) Ht).
    rewrite (dispatch_own_tag tag w ev Hs Ht).
    destruct (JSON.parse (data ev) (heap_next w)) as [[v next]|e].
    + destruct (ToString v).
      * exists [v]. split; [reflexivity|cbn; lia].
      * exists []. split; [cbn; now rewrite app_nil_r|cbn; lia].
    + exists []. split; [cbn; now rewrite app_nil_r|cbn; lia].
  - rewrite (dispatch_other_tag tag w ev) by (apply Hs || assumption).
    exists []. split; [now rewrite app_nil_r|cbn; lia].
Qed.

(** X6. The record of [dataUpdated] calls only grows at its end, and by
    at most one call for each message on the client's own tag: an
    earlier call is never dropped or reordered, no message is handed
    over twice, and messages on other tags add nothing. *)
Theorem at_most_one_call_per_message
        (tag : jsstring) (events : list MessageEvent) (w : World) :
  subscribed tag w ->
  exists more,
    dataUpdated (deliver events w) = dataUpdated w ++ more
    /\ List.length more <= List.length (filter (own tag) events).
Proof.
  revert w. induction events as [|ev events IH]; intros w Hs.
  - exists []. split; [cbn; now rewrite app_nil_r|cbn; lia].
  - cbn [deliver fold_left filter].
    destruct (dispatch_keeps_subscription tag w ev Hs) as [_ Hs'].
    destruct (IH _ Hs') as (more' & E' & L').
    destruct (dispatch_calls tag w ev Hs) as (more & E & L).
    exists (more ++ more'). unfold deliver in E'. rewrite E', E, app_assoc.
    split; [reflexivity|]. rewrite length_app.
    destruct (own tag ev); cbn [List.length]; lia.
Qed.

Lemma at_most_one_call_per_message_witness :
  exists more,
    dataUpdated (deliver [Examples.frame Examples.progress (Examples.data_body 10);
                          Examples.frame (js "other") (Examples.data_body 20);
                          Examples.frame Examples.progress (js "{oops")]
                         Examples.receiver)
    = dataUpdated Examples.receiver ++ more
    /\ List.length more <= 2.
Proof.
  assert (Hs : subscribed Examples.progress Examples.receiver).
  { apply announce_subscribed, constructor_subscribed. reflexivity. }
  exact (at_most_one_call_per_message Examples.progress
           [Examples.frame Examples.progress (Examples.data_body 10);
            Examples.frame (js "other") (Examples.data_body 20);
            Examples.frame Examples.progress (js "{oops")]
           Examples.receiver Hs).
Defined.

(** X7. No message and no sequence of messages makes the listener
    close the [EventSource]: whatever [JSON.parse] returns is a new
    object or a primitive, the comparison with the module constant is
    false, and [source.close()] is not reached.  The source and its
    listener are after the stream what they were before it. *)
Theorem source_is_never_closed
        (tag : jsstring) (events : list MessageEvent) (w : World) :
  subscribed tag w ->
  source (deliver events w) = source w
  /\ source_closed (deliver events w) = false
  /\ listeners (source (deliver events w)) = [(tag, OnTaggedEvent)].
Proof.
  intros Hs. destruct (deliver_keeps_subscription tag events w Hs) as [E Hs'].
  splits; [exact E|apply Hs'|apply Hs'].
Qed.

Lemma source_is_never_closed_witness :
  source_closed
    (deliver [Examples.frame Examples.progress Server.termination_text;
              Examples.frame Examples.progress Server.termination_text]
             Examples.receiver) = false.
Proof.
  assert (Hs : subscribed Examples.progress Examples.receiver).
  { apply announce_subscribed, constructor_subscribed. reflexivity. }
  apply (source_is_never_closed Examples.progress
           [Examples.frame Examples.progress Server.termination_text;
            Examples.frame Examples.progress Server.termination_text]
           Examples.receiver Hs).
Defined.

(** X8. A message on the client's tag whose body is a JSON object with
    an own key [toString] never reaches [dataUpdated]: building the
    console line ["Parsed payload: " + payload] throws a [TypeError],
    which leaves the listener and is reported; the source stays as it
    was. *)
Theorem own_toString_stops_the_listener
        (tag : jsstring) (w : World) (ev : MessageEvent)
        (l : loc) (props : list (jsstring * value)) (next : loc) :
  subscribed tag w ->
  type ev = tag ->
  JSON.parse (data ev) (heap_next w) = Normal (VObject l props, next) ->
  has_own (js "toString") props = true ->
  let w' := dispatch w ev in
  dataUpdated w' = dataUpdated w
  /\ reported w' = reported w ++ [TypeError "Cannot convert object to primitive value"]
  /\ console w' = console w ++ [data ev]
  /\ source w' = source w.
Proof.
  intros Hs Ht Hp Hk w'. unfold w'.
  rewrite (dispatch_own_tag tag w ev Hs Ht), Hp. cbn [ToString]. rewrite Hk.
  now splits.
Qed.

Lemma own_toString_stops_the_listener_witness :
  let ev := Examples.frame Examples.progress (js "{" ++ quoted "toString" ++ js ":1}") in
  dataUpdated (dispatch Examples.receiver ev) = []
  /\ reported (dispatch Examples.receiver ev)
     = [TypeError "Cannot convert object to primitive value"].
Proof.
  assert (Hs : subscribed Examples.progress Examples.receiver).
  { apply announce_subscribed, constructor_subscribed. reflexivity. }
  pose proof (own_toString_stops_the_listener Examples.progress Examples.receiver
                (Examples.frame Examples.progress (js "{" ++ quoted "toString" ++ js ":1}"))
                1%N [(js "toString", VNumber (Finite 1 0))] 2%N
                Hs eq_refl eq_refl eq_refl) as H.
  cbv zeta in *. split; apply H.
Defined.


(** ** From [JSON.stringify] to [JSON.parse] and back *)

Lemma hex_digit_value (d : N) :
  (d < 16)%N -> JSON.hex_value (Digits.hex_digit d) = Some d.
Proof.
  intros H. destruct d as [|p]; [reflexivity|].
  do 4 (destruct p as [p|p|]; try reflexivity); lia.
Qed.

Lemma hex4_value (c : N) :
  (c < 65536)%N ->
  exists x1 x2 x3 x4,
    Digits.hex4 c = [Digits.hex_digit x1; Digits.hex_digit x2;
                     Digits.hex_digit x3; Digits.hex_digit x4]
    /\ (x1 < 16 /\ x2 < 16 /\ x3 < 16 /\ x4 < 16)%N
    /\ (x1 * 4096 + x2 * 256 + x3 * 16 + x4 = c)%N.
Proof.
  intros H. unfold Digits.hex4.
  exists (N.land (N.shiftr c 12) 15), (N.land (N.shiftr c 8) 15),
         (N.land (N.shiftr c 4) 15), (N.land c 15).
  split; [reflexivity|].
  change 15%N with (N.ones 4). rewrite !N.land_ones, !N.shiftr_div_pow2.
  change (2 ^ 12)%N with 4096%N. change (2 ^ 8)%N with 256%N.
  change (2 ^ 4)%N with 16%N.
  pose proof (N.mod_lt (c / 4096) 16). pose proof (N.mod_lt (c / 256) 16).
  pose proof (N.mod_lt (c / 16) 16). pose proof (N.mod_lt c 16).
  split; [lia|].
  pose proof (N.div_mod c 16). pose proof (N.div_mod (c / 16) 16).
  pose proof (N.div_mod (c / 256) 16).
  assert (E1 : (c / 16 / 16 = c / 256)%N) by (rewrite N.Div0.div_div; reflexivity).
  assert (E2 : (c / 256 / 16 = c / 4096)%N) by (rewrite N.Div0.div_div; reflexivity).
  assert (E3 : (c / 4096 < 16)%N) by (apply N.Div0.div_lt_upper_bound; lia).
  rewrite (N.mod_small (c / 4096) 16) by exact E3.
  rewrite E1 in *. rewrite E2 in *. lia.
Qed.


Lemma string_chars_raw (c : code_unit) (X cs r : jsstring) :
  c <> 0x22%N -> c <> 0x5C%N -> (0x20 <= c)%N ->
  JSON.string_chars X = Some (cs, r) ->
  JSON.string_chars (c :: X) = Some (c :: cs, r).
Proof.
  intros H1 H2 H3 HX. cbn [JSON.string_chars].
  rewrite (proj2 (N.eqb_neq _ _) H1), (proj2 (N.eqb_neq _ _) H2).
  rewrite (proj2 (N.ltb_ge _ _) H3). now rewrite HX.
Qed.

Lemma string_chars_unicode (c : code_unit) (X cs r : jsstring) :
  (c < 65536)%N ->
  JSON.string_chars X = Some (cs, r) ->
  JSON.string_chars (JSON.unicode_escape c ++ X) = Some (c :: cs, r).
Proof.
  intros Hc HX. unfold JSON.unicode_escape.
  destruct (hex4_value c Hc) as (x1 & x2 & x3 & x4 & -> & (L1 & L2 & L3 & L4) & E).
  change ((js "\u" ++ [Digits.hex_digit x1; Digits.hex_digit x2;
                      Digits.hex_digit x3; Digits.hex_digit x4]) ++ X)
    with (0x5C%N :: 0x75%N :: Digits.hex_digit x1 :: Digits.hex_digit x2
            :: Digits.hex_digit x3 :: Digits.hex_digit x4 :: X).
  cbn [JSON.string_chars N.eqb Pos.eqb].
  rewrite !hex_digit_value by assumption. now rewrite HX, E.
Qed.

Lemma string_chars_escape (c : code_unit) (X cs r : jsstring) :
  JSON.string_chars X = Some (cs, r) ->
  JSON.string_chars (JSON.escape c ++ X) = Some (c :: cs, r).
Proof.
  intros HX. unfold JSON.escape.
  repeat match goal with
         | |- context [if (?a =? ?b)%N then _ else _] =>
             destruct (N.eqb_spec a b) as [-> | ?];
             [cbn [app js map list_ascii_of_string JSON.string_chars N.eqb Pos.eqb
                   JSON.simple_escape N_of_ascii N.add N.mul Pos.add Pos.mul
                   N.ltb N.compare Pos.compare Pos.compare_cont];
              now rewrite HX|]
         end.
  destruct (N.ltb_spec c 32).
  - apply string_chars_unicode; [lia|exact HX].
  - now apply string_chars_raw.
Qed.

(** What [QuoteJSONString] writes between the quotes, [string_chars]
    reads back, whatever the string holds: quotes, backslashes,
    control characters, lone surrogates. *)
Lemma string_chars_quote_units (rest s : jsstring) :
  JSON.string_chars (JSON.quote_units s ++ 0x22%N :: rest) = Some (s, rest)
  /\ forall c,
      JSON.string_chars (JSON.quote_units (c :: s) ++ 0x22%N :: rest)
      = Some (c :: s, rest).
Proof.
  assert (Hlead : forall c, TextEncoder.is_lead_surrogate c = true ->
                            (0xD800 <= c <= 0xDBFF)%N).
  { intros c H. unfold TextEncoder.is_lead_surrogate in H.
    apply andb_true_iff in H as [H1 H2]. apply N.leb_le in H1, H2. lia. }
  assert (Htrail : forall c, TextEncoder.is_trail_surrogate c = true ->
                             (0xDC00 <= c <= 0xDFFF)%N).
  { intros c H. unfold TextEncoder.is_trail_surrogate in H.
    apply andb_true_iff in H as [H1 H2]. apply N.leb_le in H1, H2. lia. }
  induction s as [|d s [IH1 IH2]].
  - split; [reflexivity|]. intros c. cbn [JSON.quote_units].
    destruct (TextEncoder.is_lead_surrogate c) eqn:Hc.
    + apply string_chars_unicode; [apply Hlead in Hc; lia|reflexivity].
    + destruct (TextEncoder.is_trail_surrogate c) eqn:Hc'; rewrite <- app_assoc.
      * apply string_chars_unicode; [apply Htrail in Hc'; lia|reflexivity].
      * now apply string_chars_escape.
  - split; [apply IH2|]. intros c.
    change (JSON.quote_units (c :: d :: s)) with
      (if TextEncoder.is_lead_surrogate c then
         if TextEncoder.is_trail_surrogate d
         then c :: d :: JSON.quote_units s
         else JSON.unicode_escape c ++ JSON.quote_units (d :: s)
       else if TextEncoder.is_trail_surrogate c
            then JSON.unicode_escape c ++ JSON.quote_units (d :: s)
            else JSON.escape c ++ JSON.quote_units (d :: s)).
    destruct (TextEncoder.is_lead_surrogate c) eqn:Hc.
    + destruct (TextEncoder.is_trail_surrogate d) eqn:Hd.
      * apply Hlead in Hc. apply Htrail in Hd.
        change ((c :: d :: JSON.quote_units s) ++ 0x22%N :: rest)
          with (c :: d :: (JSON.quote_units s ++ 0x22%N :: rest)).
        apply string_chars_raw; try lia. apply string_chars_raw; try lia. exact IH1.
      * rewrite <- app_assoc. apply string_chars_unicode; [apply Hlead in Hc; lia|].
        apply IH2.
    + destruct (TextEncoder.is_trail_surrogate c) eqn:Hc'; rewrite <- app_assoc.
      * apply string_chars_unicode; [apply Htrail in Hc'; lia|]. apply IH2.
      * apply string_chars_escape, IH2.
Qed.


(** The text [pushData] serialises for a string payload. *)
Lemma stringify_string_envelope (l : loc) (s : jsstring) :
  JSON.stringify (Server.data_envelope l (VString s))
  = Normal (Some (Server.envelope_text (Some (JSON.QuoteJSONString s)))).
Proof. now rewrite ServerProofs.stringify_data_envelope. Qed.

Lemma string_envelope_shape (s : jsstring) :
  Server.envelope_text (Some (JSON.QuoteJSONString s))
  = (js "{" ++ quoted "payload" ++ js ":" ++ [0x22%N])
      ++ (JSON.quote_units s ++ 0x22%N :: Server.envelope_suffix).
Proof.
  unfold Server.envelope_text, Server.envelope_prefix, JSON.QuoteJSONString.
  now rewrite <- !app_assoc.
Qed.

Lemma parse_value_string_envelope (f : nat) (s : jsstring) (next : loc) :
  JSON.parse_value (S (S (S (S f))))
    (Server.envelope_text (Some (JSON.QuoteJSONString s))) next
  = JSON.Parsed (received next (VString s)) [] (next + 1)%N.
Proof.
  rewrite string_envelope_shape.
  pose proof (proj1 (string_chars_quote_units Server.envelope_suffix s)) as HY.
  remember (JSON.quote_units s ++ 0x22%N :: Server.envelope_suffix) as Y eqn:EY.
  clear EY. simpl. rewrite HY. reflexivity.
Qed.

Lemma parse_string_envelope (s : jsstring) (next : loc) :
  JSON.parse (Server.envelope_text (Some (JSON.QuoteJSONString s))) next
  = Normal (received next (VString s), (next + 1)%N).
Proof.
  unfold JSON.parse.
  assert (Hf : exists f, JSON.fuel_for (Server.envelope_text (Some (JSON.QuoteJSONString s)))
                         = S (S (S (S f)))).
  { unfold JSON.fuel_for. rewrite string_envelope_shape, length_app.
    cbn [List.length js quoted map list_ascii_of_string app].
    exists (2 * (12 + List.length (JSON.quote_units s ++ 0x22%N :: Server.envelope_suffix)) + 1 - 4).
    lia. }
  destruct Hf as [f ->]. now rewrite parse_value_string_envelope.
Qed.

(** X9. A string survives the way from [pushData] to [dataUpdated]:
    when the text [pushData(s)] serialises is the data of a message on
    the client's tag, the callback is called once, with a new object
    [{ payload: s, status: "running" }] whose payload is [s] code unit
    for code unit, whatever [s] holds (quotes, backslashes, control
    characters, lone surrogates).  The callback receives the whole
    envelope, not the payload alone. *)
Theorem string_payload_round_trip (tag : jsstring) (w : World) (s : jsstring) :
  subscribed tag w ->
  let text := Server.envelope_text (Some (JSON.QuoteJSONString s)) in
  (forall l, JSON.stringify (Server.data_envelope l (VString s)) = Normal (Some text))
  /\ dataUpdated (dispatch w {| type := tag; data := text |})
     = dataUpdated w ++ [received (heap_next w) (VString s)]
  /\ reported (dispatch w {| type := tag; data := text |}) = reported w.
Proof.
  intros Hs text. split; [intros l; apply stringify_string_envelope|].
  rewrite (dispatch_own_tag tag w {| type := tag; data := text |} Hs eq_refl).
  cbn [data]. unfold text.
  rewrite parse_string_envelope. cbn [ToString received has_own existsb].
  change (jsstring_eqb (fst (js "payload", VString s)) (js "toString")) with false.
  change (jsstring_eqb (fst (js "status", VString (js "running"))) (js "toString"))
    with false.
  now split.
Qed.

Lemma string_payload_round_trip_witness :
  let s := js "a" ++ [0x22; 0x0A; 0xD800]%N ++ js "\z" in
  dataUpdated (dispatch Examples.receiver
                 {| type := Examples.progress;
                    data := Server.envelope_text (Some (JSON.QuoteJSONString s)) |})
  = [received 1%N (VString s)].
Proof.
  assert (Hs : subscribed Examples.progress Examples.receiver).
  { apply announce_subscribed, constructor_subscribed. reflexivity. }
  apply (string_payload_round_trip Examples.progress Examples.receiver
           (js "a" ++ [0x22; 0x0A; 0xD800]%N ++ js "\z") Hs).
Defined.

End ClientExtras.
